(** * webmidi: the [Input] port (src/Input.js)

    A shallow embedding of the [Input] class: the port demultiplexer
    ([_onMidiMessage], [_parseEvent]), the transport state translation
    ([_onStateChange]), the port lifecycle ([open], [close], [destroy]), the
    fan-out subscription API ([addListener], [hasListener],
    [removeListener]) and the forwarder list.

    [Input.js] is the only file of the library at hand.  What it imports
    ([Message], [InputChannel], [Utilities], [Enumerations], the
    [EventEmitter] base class) is represented by definitions whose comment
    starts with "Modelled from the spec:".

    JavaScript methods mutate [this] and may throw; they are embedded as
    computations in a state-and-exception monad [M] whose state also
    carries the log of externally observable effects. *)

From stdpp Require Import gmap strings list pretty.

Local Open Scope string_scope.
Local Open Scope Z_scope.
Local Open Scope list_scope.

(** ** JavaScript values that the port handles *)

(** A function object is known by its identity only. *)
Definition callback := nat.

(** An object used as [options.context]. *)
Definition context := nat.

(** [DOMHighResTimeStamp]s are only ever copied, never computed with. *)
Definition timestamp := Z.

(** The result of [e.data[1] + 1]: a number, or [NaN] when the index is
    out of the array ([undefined + 1]). *)
Inductive jsnum :=
| Num (n : Z)
| NaN.

(** The exceptions the port can raise or let through. *)
Inductive Exn :=
| TypeError (what : string)
| Error (what : string)
| ValidationError (what : string)
| TransportFailure (what : string).

(** ** Message *)

Module Message.

Record t := mk {
  data : list Z;
  statusByte : option Z;
  dataBytes : list Z;
  type : option string;
  channel : Z;
  isChannelMessage : bool;
  isSystemMessage : bool
}.

(** Kind and number of data bytes of a channel message, from the high
    nibble of the status byte. *)
Definition channel_kind (nibble : Z) : option (string * nat) :=
  if nibble =? 8 then Some ("noteoff", 2%nat)
  else if nibble =? 9 then Some ("noteon", 2%nat)
  else if nibble =? 10 then Some ("keyaftertouch", 2%nat)
  else if nibble =? 11 then Some ("controlchange", 2%nat)
  else if nibble =? 12 then Some ("programchange", 1%nat)
  else if nibble =? 13 then Some ("channelaftertouch", 1%nat)
  else if nibble =? 14 then Some ("pitchbend", 2%nat)
  else None.

(** Kind and number of data bytes of a fixed-size system message. *)
Definition system_kind (status : Z) : option (string * nat) :=
  if status =? 241 then Some ("timecode", 1%nat)
  else if status =? 242 then Some ("songposition", 2%nat)
  else if status =? 243 then Some ("songselect", 1%nat)
  else if status =? 246 then Some ("tunerequest", 0%nat)
  else if status =? 248 then Some ("clock", 0%nat)
  else if status =? 250 then Some ("start", 0%nat)
  else if status =? 251 then Some ("continue", 0%nat)
  else if status =? 252 then Some ("stop", 0%nat)
  else if status =? 254 then Some ("activesensing", 0%nat)
  else if status =? 255 then Some ("reset", 0%nat)
  else None.

(** The payload of a system-exclusive frame: everything up to and
    including the first [0xF7], or the whole rest of the frame. *)
Fixpoint sysex_payload (bytes : list Z) : list Z :=
  match bytes with
  | [] => []
  | b :: rest => if b =? 247 then [b] else b :: sysex_payload rest
  end.

(** Modelled from the spec: the [Message] constructor, which lives in
    [WebMidi.js], section 4.1 "Message Decoder".  Status [0x80-0xEF] is a
    channel message on channel [(status & 0x0F) + 1]; [0xF0] is
    system-exclusive; ten fixed system statuses follow the table; any
    other status byte (and the empty frame) is of the "unknown" kind and
    is classified as a system message.  The "unknown" kind is the absent
    [type] that [_parseEvent] tests with [message.type || ...]; system
    messages have channel 0. *)
Definition new (bytes : list Z) : t :=
  let unknown :=
    mk bytes (head bytes) (tail bytes) None 0 false true in
  match bytes with
  | [] => unknown
  | status :: rest =>
    if (128 <=? status) && (status <=? 239) then
      match channel_kind (Z.shiftr status 4) with
      | Some (kind, n) =>
        mk bytes (Some status) (take n rest) (Some kind)
           (Z.land status 15 + 1) true false
      | None => unknown
      end
    else if status =? 240 then
      mk bytes (Some status) (sysex_payload rest) (Some "sysex") 0 false true
    else
      match system_kind status with
      | Some (kind, n) =>
        mk bytes (Some status) (take n rest) (Some kind) 0 false true
      | None => unknown
      end
  end.

End Message.

(** ** Events *)

(** The identity fields of a port, as the transport reports them. *)
Module MIDIPort.

Record t := mk {
  connection : string;
  id : string;
  manufacturer : string;
  name : string;
  state : string;
  type : string
}.

End MIDIPort.

(** What [event.target] or a settled promise refers to: the live [Input]
    object itself ([this]), or (for [disconnected]) a plain object holding
    copies of the identity fields. *)
Inductive ObjectRef :=
| TheInput
| Snapshot (fields : MIDIPort.t).

Module Event.

(** One record for all the event objects the port builds; a property an
    object does not have is [None]. *)
Record t := mk {
  type : option string;
  timestamp : timestamp;
  target : ObjectRef;
  message : option Message.t;
  data : option (list Z);
  rawData : option (list Z);
  statusByte : option Z;
  dataBytes : option (list Z);
  song : option jsnum
}.

Definition set_type (ty : string) (e : t) : t :=
  mk (Some ty) (timestamp e) (target e) (message e) (data e) (rawData e)
     (statusByte e) (dataBytes e) (song e).

Definition set_target (tg : ObjectRef) (e : t) : t :=
  mk (type e) (timestamp e) tg (message e) (data e) (rawData e)
     (statusByte e) (dataBytes e) (song e).

Definition set_song (s : jsnum) (e : t) : t :=
  mk (type e) (timestamp e) (target e) (message e) (data e) (rawData e)
     (statusByte e) (dataBytes e) (Some s).

End Event.

(** The [MIDIMessageEvent] handed to [onmidimessage]. *)
Record MIDIMessageEvent := {
  mme_data : list Z;
  mme_timeStamp : timestamp
}.

(** ** Arguments of the subscription API *)

(** One entry of [options.channels]: an integer, or any other value
    ([undefined], a function, ...). *)
Inductive chan_entry :=
| ChNum (n : Z)
| ChOther.

(** [options.channels] is a single value or an array. *)
Inductive ChannelsArg :=
| CSingle (e : chan_entry)
| CArray (es : list chan_entry).

Module Options.

Record t := mk {
  channels : option ChannelsArg;
  context : option context;
  duration : option Z;
  prepend : bool;
  remaining : option Z;
  arguments : list Z
}.

(** The literal [{}]. *)
Definition empty : t := mk None None None false None [].

(** The literal [{channels: c}]. *)
Definition of_channels (c : option ChannelsArg) : t :=
  mk c None None false None [].

Definition set_channels (c : ChannelsArg) (o : t) : t :=
  mk (Some c) (context o) (duration o) (prepend o) (remaining o)
     (arguments o).

Definition set_remaining (r : Z) (o : t) : t :=
  mk (channels o) (context o) (duration o) (prepend o) (Some r)
     (arguments o).

End Options.

(** The second positional argument: the callback, or, in the legacy call
    shape, the channels. *)
Inductive ListenerArg :=
| LFunction (f : callback)
| LChannels (c : ChannelsArg)
| LUndefined.

(** The third positional argument: the options object, or, in the legacy
    call shape, the callback. *)
Inductive OptionsArg :=
| OObject (o : Options.t)
| OFunction (f : callback).

(** Reading option properties off the third argument; a function object
    has none of them. *)
Definition options_of (o : OptionsArg) : Options.t :=
  match o with
  | OObject o => o
  | OFunction _ => Options.empty
  end.

(** [[].concat(listener)] *)
Definition concat_channels (listener : ListenerArg) : ChannelsArg :=
  match listener with
  | LChannels (CArray es) => CArray es
  | LChannels (CSingle e) => CArray [e]
  | LFunction _ | LUndefined => CArray [ChOther]
  end.

(** ** Listeners and the registry of an emitter *)

(** The two kinds of emitter: the port itself and its channels. *)
Inductive Emitter :=
| PortEmitter
| ChannelEmitter (number : Z).

Module Listener.

Record t := mk {
  id : nat;
  event : string;
  target : Emitter;
  callback : callback;
  context : option context;
  remaining : option Z;
  duration : option Z;
  arguments : list Z
}.

Definition set_remaining (r : Z) (l : t) : t :=
  mk (id l) (event l) (target l) (callback l) (context l) (Some r)
     (duration l) (arguments l).

End Listener.

#[global] Instance Emitter_eq_dec : EqDecision Emitter.
Proof. solve_decision. Defined.

#[global] Instance Listener_eq_dec : EqDecision Listener.t.
Proof. solve_decision. Defined.

Module EventEmitter.

(** Modelled from the spec: the [EventEmitter] base class (package
    djipevents) that [Input] and [InputChannel] extend, section 4.4
    "Subscription Registry" and the Listener entry of section 3: a map
    from event names to the listeners in invocation order.  A listener
    is created from the callback and the options (invocation context,
    remaining count, duration, extra arguments) and is put first with
    [prepend], last otherwise. *)
Definition addListener (target : Emitter) (fresh : nat) (event : string)
    (f : callback) (o : Options.t) (eventMap : gmap string (list Listener.t))
    : Listener.t * gmap string (list Listener.t) :=
  let l := Listener.mk fresh event target f (Options.context o)
             (Options.remaining o) (Options.duration o)
             (Options.arguments o) in
  let old := default [] (eventMap !! event) in
  (l, <[event := if Options.prepend o then l :: old else old ++ [l]]> eventMap).

(** Whether a listener satisfies the callback criterion.  No callback
    given: every listener does; a value that is not a function is the
    callback of no listener. *)
Definition callback_matches (listener : ListenerArg) (l : Listener.t) : bool :=
  match listener with
  | LUndefined => true
  | LFunction f => bool_decide (Listener.callback l = f)
  | LChannels _ => false
  end.

(** Modelled from the spec: "has a matching listener" for an event name
    and a callback. *)
Definition hasListener (event : string) (listener : ListenerArg)
    (eventMap : gmap string (list Listener.t)) : bool :=
  existsb (callback_matches listener) (default [] (eventMap !! event)).

(** A listener is removed when it matches every supplied criterion:
    callback, [options.context], [options.remaining]. *)
Definition matches (listener : ListenerArg) (o : Options.t)
    (l : Listener.t) : bool :=
  callback_matches listener l
  && match Options.context o with
     | Some c => bool_decide (Listener.context l = Some c)
     | None => true
     end
  && match Options.remaining o with
     | Some r => bool_decide (Listener.remaining l = Some r)
     | None => true
     end.

(** Modelled from the spec: [removeListener] of the base class.  Without
    an event name the whole registry is cleared; with one, the listeners
    of that name matching all the criteria go. *)
Definition removeListener (event : option string) (listener : ListenerArg)
    (o : Options.t) (eventMap : gmap string (list Listener.t))
    : gmap string (list Listener.t) :=
  match event with
  | None => ∅
  | Some event =>
    match eventMap !! event with
    | None => eventMap
    | Some ls =>
      match List.filter (fun l => negb (matches listener o l)) ls with
      | [] => delete event eventMap
      | keep => <[event := keep]> eventMap
      end
    end
  end.

(** One listener meets one emission: it is invoked if its remaining
    count allows it, the count goes down by one, and the listener leaves
    the registry when the count is used up. *)
Definition fire (l : Listener.t) : bool * option Listener.t :=
  match Listener.remaining l with
  | None => (true, Some l)
  | Some n =>
    if 0 <? n
    then (true, if n - 1 <=? 0 then None
                else Some (Listener.set_remaining (n - 1) l))
    else (false, None)
  end.

(** Modelled from the spec: the invocation semantics of section 4.4.
    The result is the listeners whose callback ran, in order, and the
    registry afterwards.  Callbacks are recorded, not run: a callback
    that throws or calls back into the port, and expiry timers, are
    outside the model. *)
Definition emit (event : string) (eventMap : gmap string (list Listener.t))
    : list Listener.t * gmap string (list Listener.t) :=
  match eventMap !! event with
  | None => ([], eventMap)
  | Some ls =>
    let invoked := List.filter (fun l => fst (fire l)) ls in
    match omap (fun l => snd (fire l)) ls with
    | [] => (invoked, delete event eventMap)
    | keep => (invoked, <[event := keep]> eventMap)
    end
  end.

End EventEmitter.

(** ** Tables and helpers imported by [Input.js] *)

Module Enumerations.

(** Modelled from the spec: [Enumerations.MIDI_CHANNEL_NUMBERS], "all
    16" channels, numbered 1 to 16. *)
Definition MIDI_CHANNEL_NUMBERS : list Z :=
  [1; 2; 3; 4; 5; 6; 7; 8; 9; 10; 11; 12; 13; 14; 15; 16].

End Enumerations.

Module Utilities.

Definition valid_channel (e : chan_entry) : option Z :=
  match e with
  | ChNum n => if (1 <=? n) && (n <=? 16) then Some n else None
  | ChOther => None
  end.

(** Modelled from the spec: [Utilities.sanitizeChannels], section 4.4
    and 7 (b): the channel set is resolved from [options.channels] and
    each entry is validated to be in 1-16, else the call fails with a
    validation error; a missing value fails likewise. *)
Definition sanitizeChannels (c : option ChannelsArg) : Exn + list Z :=
  let entries :=
    match c with
    | None => [ChOther]
    | Some (CSingle e) => [e]
    | Some (CArray es) => es
    end in
  match mapM valid_channel entries with
  | Some chs => inr chs
  | None => inl (ValidationError "channel out of the range 1-16")
  end.

End Utilities.

Module InputChannel.

(** Modelled from the spec: the [InputChannel] class of
    [InputChannel.js], as far as the port touches it: its number and
    its own subscription registry. *)
Record t := mk {
  number : Z;
  eventMap : gmap string (list Listener.t)
}.

Definition new (number : Z) : t := mk number ∅.

Definition set_eventMap (m : gmap string (list Listener.t)) (c : t) : t :=
  mk (number c) m.

(** Modelled from the spec: [InputChannel.EVENTS], the closed list of
    channel-scoped event names of section 6. *)
Definition EVENTS : list string :=
  ["noteon"; "noteoff"; "keyaftertouch"; "controlchange";
   "channelaftertouch"; "programchange"; "pitchbend";
   "allnotesoff"; "allsoundoff"; "localcontrol"; "monomode"; "omnimode";
   "resetallcontrollers";
   "rpn"; "rpn-dataentrycoarse"; "rpn-dataentryfine";
   "rpn-databuttonincrement"; "rpn-databuttondecrement";
   "nrpn"; "nrpn-dataentrycoarse"; "nrpn-dataentryfine";
   "nrpn-databuttonincrement"; "nrpn-databuttondecrement"]
  ++ ((fun n : nat => String.append "controlchange-" (pretty n))
        <$> seq 0 128).

End InputChannel.

Module Forwarder.

(** Modelled from the spec: a [Forwarder] of [Forwarder.js], "an
    external collaborator that relays decoded messages, filtered by
    type/channel, to other destinations".  [id] stands for the identity
    of the object, which [removeForwarder] and [hasForwarder] compare. *)
Record t := mk {
  id : nat;
  destinations : list nat;
  types : option (list string);
  channels : option ChannelsArg
}.

End Forwarder.

#[global] Instance chan_entry_eq_dec : EqDecision chan_entry.
Proof. solve_decision. Defined.

#[global] Instance ChannelsArg_eq_dec : EqDecision ChannelsArg.
Proof. solve_decision. Defined.

#[global] Instance Forwarder_eq_dec : EqDecision Forwarder.t.
Proof. solve_decision. Defined.

(** The first argument of [addForwarder]: a forwarder, or the output(s)
    to build one for. *)
Inductive ForwarderArg :=
| AForwarder (f : Forwarder.t)
| AOutputs (outputs : list nat).

(** ** The transport object *)

Module MIDIInput.

(** The [MIDIInput] of the Web MIDI API: the identity and state fields
    and whether the two handlers are installed. *)
Record t := mk {
  port : MIDIPort.t;
  onstatechange : bool;
  onmidimessage : bool
}.

End MIDIInput.

(** ** The Input object *)

Record Input := mkInput {
  _midiInput : option MIDIInput.t;
  _octaveOffset : Z;
  channels : list (option InputChannel.t);
  _forwarders : list Forwarder.t;
  eventMap : gmap string (list Listener.t)
}.

(** What a method call does to the world outside the [Input] object, in
    the order it happens. *)
Inductive Effect :=
| Emit (name : string) (e : Event.t)
| Invoke (l : Listener.t) (e : Event.t)
| ProcessMidiMessageEvent (channel : Z) (e : Event.t)
| Forward (f : Forwarder.t) (m : Message.t)
| ConsoleWarn (text connection state : string)
| ChannelDestroy (number : Z)
| TransportOpen
| TransportClose.

(** The object, the effects so far, and the next unused object identity. *)
Record State := mkState {
  this : Input;
  effects : list Effect;
  fresh : nat
}.

Inductive Outcome (A : Type) :=
| Return (a : A) (s : State)
| Throw (e : Exn) (s : State).
Arguments Return {A} a s.
Arguments Throw {A} e s.

Definition M (A : Type) : Type := State -> Outcome A.

#[global] Instance M_ret : MRet M := fun A a s => Return a s.

#[global] Instance M_bind : MBind M := fun A B k m s =>
  match m s with
  | Return a s' => k a s'
  | Throw e s' => Throw e s'
  end.

Definition throw {A} (e : Exn) : M A := fun s => Throw e s.

Definition get : M Input := fun s => Return (this s) s.

Definition modify (f : Input -> Input) : M unit :=
  fun s => Return tt (mkState (f (this s)) (effects s) (fresh s)).

Definition perform (es : list Effect) : M unit :=
  fun s => Return tt (mkState (this s) (effects s ++ es) (fresh s)).

(** A new object identity. *)
Definition allocate : M nat :=
  fun s => Return (fresh s) (mkState (this s) (effects s) (S (fresh s))).

Definition lift {A} (r : Exn + A) : M A :=
  match r with
  | inl e => throw e
  | inr a => mret a
  end.

(** [xs.forEach(f)] *)
Fixpoint forEach {A} (f : A -> M unit) (xs : list A) : M unit :=
  match xs with
  | [] => mret tt
  | x :: rest => f x ;; forEach f rest
  end.

(** [let out = []; xs.forEach(x => out.push(f(x))); out] *)
Fixpoint collect {A B} (f : A -> M B) (xs : list A) : M (list B) :=
  match xs with
  | [] => mret []
  | x :: rest => y ← f x; ys ← collect f rest; mret (y :: ys)
  end.

(** [xs.every(f)] stops at the first [false]. *)
Fixpoint every {A} (f : A -> M bool) (xs : list A) : M bool :=
  match xs with
  | [] => mret true
  | x :: rest => b ← f x; if b : bool then every f rest else mret false
  end.

(** Promises, observed once settled.  Message handling on a port runs to
    completion, so an [async] method is embedded with the answer of the
    transport as an argument and yields the promise as it settles. *)
Inductive Promise (A : Type) :=
| Fulfilled (a : A)
| Rejected (e : Exn).
Arguments Fulfilled {A} a.
Arguments Rejected {A} e.

(** An exception inside an [async] body rejects the promise. *)
Definition async {A} (body : M (Promise A)) : M (Promise A) :=
  fun s =>
    match body s with
    | Return p s' => Return p s'
    | Throw e s' => Return (Rejected e) s'
    end.

(** ** Field updates and array access on the Input object *)

Definition set_midiInput (mi : option MIDIInput.t) (i : Input) : Input :=
  mkInput mi (_octaveOffset i) (channels i) (_forwarders i) (eventMap i).

Definition set_octaveOffset (v : Z) (i : Input) : Input :=
  mkInput (_midiInput i) v (channels i) (_forwarders i) (eventMap i).

Definition set_channels (cs : list (option InputChannel.t)) (i : Input) : Input :=
  mkInput (_midiInput i) (_octaveOffset i) cs (_forwarders i) (eventMap i).

Definition set_forwarders (fs : list Forwarder.t) (i : Input) : Input :=
  mkInput (_midiInput i) (_octaveOffset i) (channels i) fs (eventMap i).

Definition set_eventMap (m : gmap string (list Listener.t)) (i : Input) : Input :=
  mkInput (_midiInput i) (_octaveOffset i) (channels i) (_forwarders i) m.

(** [this.channels[ch]]: [undefined] outside the array and at the hole
    at index 0. *)
Definition channel_at (i : Input) (ch : Z) : option InputChannel.t :=
  if ch <? 0 then None else mjoin (channels i !! Z.to_nat ch).

(** The channel object at index [ch] after one of its methods changed
    it. *)
Definition store_channel (ch : Z) (c : InputChannel.t) (i : Input) : Input :=
  set_channels (<[Z.to_nat ch := Some c]> (channels i)) i.

(** [constructor(midiInput)]: channels 1 to 16 are created, index 0 of
    the array stays empty, and the two transport handlers are bound. *)
Definition new_Input (midiInput : MIDIInput.t) : Input :=
  mkInput
    (Some (MIDIInput.mk (MIDIInput.port midiInput) true true))
    0
    (None :: ((fun i => Some (InputChannel.new i)) <$> seqZ 1 16))
    []
    ∅.

Definition initial (midiInput : MIDIInput.t) : State :=
  mkState (new_Input midiInput) [] 0.

(** [x || fallback] on an optional string: [undefined] and the empty
    string are falsy. *)
Definition or_string (x : option string) (fallback : string) : string :=
  match x with
  | Some EmptyString | None => fallback
  | Some s => s
  end.

(** What [addListener] returns: one listener, or an array of them. *)
Inductive Listeners :=
| OneListener (l : Listener.t)
| ListenerArray (ls : list Listener.t).

(** ** Methods inherited from EventEmitter, on the port and on a channel *)

(** The type check of the base class on the callback, then the
    creation of the listener with a new identity. *)
Definition create_listener (target : Emitter) (event : string)
    (listener : ListenerArg) (o : Options.t)
    (m : gmap string (list Listener.t))
    : M (Listener.t * gmap string (list Listener.t)) :=
  match listener with
  | LFunction f =>
    n ← allocate;
    mret (EventEmitter.addListener target n event f o m)
  | LChannels _ | LUndefined =>
    throw (TypeError "The callback must be a function.")
  end.

(** [super.addListener(event, listener, options)] *)
Definition super_addListener (event : string) (listener : ListenerArg)
    (o : Options.t) : M Listener.t :=
  i ← get;
  '(l, m) ← create_listener PortEmitter event listener o (eventMap i);
  modify (set_eventMap m);;
  mret l.

(** [super.hasListener(event, listener)] *)
Definition super_hasListener (event : string) (listener : ListenerArg)
    : M bool :=
  i ← get;
  mret (EventEmitter.hasListener event listener (eventMap i)).

(** [super.removeListener(event, listener, options)] *)
Definition super_removeListener (event : option string)
    (listener : ListenerArg) (o : Options.t) : M unit :=
  modify (fun i =>
    set_eventMap (EventEmitter.removeListener event listener o (eventMap i)) i).

(** [this.emit(name, e)] *)
Definition emit (name : string) (e : Event.t) : M unit :=
  i ← get;
  let '(invoked, m) := EventEmitter.emit name (eventMap i) in
  perform (Emit name e :: ((fun l => Invoke l e) <$> invoked));;
  modify (set_eventMap m).

(** [this.channels[ch].m(...)]: a [TypeError] when there is no object at
    that index. *)
Definition with_channel {A} (ch : Z) (method : InputChannel.t -> M A) : M A :=
  i ← get;
  match channel_at i ch with
  | Some c => method c
  | None => throw (TypeError "this.channels[ch] is undefined")
  end.

(** [this.channels[ch].addListener(event, listener, options)] *)
Definition channel_addListener (ch : Z) (event : string)
    (listener : ListenerArg) (o : Options.t) : M Listener.t :=
  with_channel ch (fun c =>
    '(l, m) ← create_listener (ChannelEmitter (InputChannel.number c))
                 event listener o (InputChannel.eventMap c);
    modify (store_channel ch (InputChannel.set_eventMap m c));;
    mret l).

(** [this.channels[ch].hasListener(event, listener)] *)
Definition channel_hasListener (ch : Z) (event : string)
    (listener : ListenerArg) : M bool :=
  with_channel ch (fun c =>
    mret (EventEmitter.hasListener event listener (InputChannel.eventMap c))).

(** [this.channels[ch].removeListener(event, listener, options)] *)
Definition channel_removeListener (ch : Z) (event : option string)
    (listener : ListenerArg) (o : Options.t) : M unit :=
  with_channel ch (fun c =>
    modify (store_channel ch
      (InputChannel.set_eventMap
         (EventEmitter.removeListener event listener o (InputChannel.eventMap c))
         c))).

(** [this.channels[ch]._processMidiMessageEvent(e)]: the channel
    assembler is not part of [Input.js]; the call is recorded. *)
Definition channel_processMidiMessageEvent (ch : Z) (e : Event.t) : M unit :=
  with_channel ch (fun _ => perform [ProcessMidiMessageEvent ch e]).

(** ** The methods of Input *)

Section Input.

(** [WebMidi.validation] and [WebMidi.time], the two globals the class
    reads. *)
Variable validation : bool.
Variable time : timestamp.

(** [_onStateChange(e)], with [e.port] as argument. *)
Definition _onStateChange (port : MIDIPort.t) : M unit :=
  let event := Event.mk None time TheInput None None None None None None in
  if bool_decide (MIDIPort.connection port = "open") then
    emit "opened" (Event.set_type "opened" event)
  else if bool_decide (MIDIPort.connection port = "closed")
          && bool_decide (MIDIPort.state port = "connected") then
    emit "closed" (Event.set_type "closed" event)
  else if bool_decide (MIDIPort.connection port = "closed")
          && bool_decide (MIDIPort.state port = "disconnected") then
    let event := Event.set_type "disconnected" event in
    let event :=
      Event.set_target
        (Snapshot (MIDIPort.mk (MIDIPort.connection port) (MIDIPort.id port)
                     (MIDIPort.manufacturer port) (MIDIPort.name port)
                     (MIDIPort.state port) (MIDIPort.type port)))
        event in
    emit "disconnected" event
  else if bool_decide (MIDIPort.connection port = "pending")
          && bool_decide (MIDIPort.state port = "disconnected") then
    mret tt
  else
    perform [ConsoleWarn "This statechange event was not caught: "
               (MIDIPort.connection port) (MIDIPort.state port)].

(** [_parseEvent(e)] *)
Definition _parseEvent (e : Event.t) : M unit :=
  match Event.message e with
  | None => throw (TypeError "event.message is undefined")
  | Some message =>
    let type := or_string (Message.type message) "unknownmidimessage" in
    let event := Event.set_type type e in
    event ←
      (if bool_decide (type = "songselect") then
         match Event.data e with
         | None => throw (TypeError "e.data is undefined")
         | Some data =>
           mret (Event.set_song
                   (match data !! 1%nat with
                    | Some byte => Num (byte + 1)
                    | None => NaN
                    end)
                   event)
         end
       else mret event);
    emit type event
  end.

(** [_onMidiMessage(e)] *)
Definition _onMidiMessage (e : MIDIMessageEvent) : M unit :=
  let message := Message.new (mme_data e) in
  let event :=
    Event.mk (Some "midimessage") (mme_timeStamp e) TheInput (Some message)
      (Some (Message.data message)) (Some (Message.data message))
      (Message.data message !! 0%nat) (Some (Message.dataBytes message))
      None in
  emit "midimessage" event;;
  (if Message.isSystemMessage message then
     _parseEvent event
   else if Message.isChannelMessage message then
     channel_processMidiMessageEvent (Message.channel message) event
   else mret tt);;
  i ← get;
  forEach (fun forwarder => perform [Forward forwarder message])
    (_forwarders i).

(** [open()]; [answer] is the error the transport rejects with, if it
    does. *)
Definition open (answer : option Exn) : M (Promise ObjectRef) :=
  async (
    i ← get;
    match _midiInput i with
    | None => mret (Rejected (TypeError "this._midiInput is null"))
    | Some _ =>
      perform [TransportOpen];;
      match answer with
      | Some err => mret (Rejected err)
      | None => mret (Fulfilled TheInput)
      end
    end).

(** [close()] *)
Definition close (answer : option Exn) : M (Promise ObjectRef) :=
  async (
    i ← get;
    match _midiInput i with
    | None => mret (Fulfilled TheInput)
    | Some _ =>
      perform [TransportClose];;
      match answer with
      | Some err => mret (Rejected err)
      | None => mret (Fulfilled TheInput)
      end
    end).

(** The legacy call shape [(event, channels, listener)], accepted while
    validation is on.  [keep_undefined] is the [listener != undefined]
    test that only [addListener] makes. *)
Definition legacy (keep_undefined : bool) (listener : ListenerArg)
    (options : OptionsArg) : ListenerArg * OptionsArg :=
  if validation then
    match options with
    | OFunction f =>
      let channels :=
        match listener with
        | LUndefined =>
          if keep_undefined then None else Some (concat_channels listener)
        | _ => Some (concat_channels listener)
        end in
      (LFunction f, OObject (Options.of_channels channels))
    | OObject _ => (listener, options)
    end
  else (listener, options).

(** [if (options.channels === undefined)
       options.channels = Enumerations.MIDI_CHANNEL_NUMBERS] *)
Definition default_channels (o : Options.t) : Options.t :=
  match Options.channels o with
  | None =>
    Options.set_channels (CArray (ChNum <$> Enumerations.MIDI_CHANNEL_NUMBERS)) o
  | Some _ => o
  end.

(** [addListener(event, listener, options = {})] *)
Definition addListener (event : string) (listener : ListenerArg)
    (options : OptionsArg) : M Listeners :=
  let '(listener, options) := legacy true listener options in
  let options := options_of options in
  if bool_decide (event ∈ InputChannel.EVENTS) then
    let options := default_channels options in
    chs ← lift (Utilities.sanitizeChannels (Options.channels options));
    listeners ←
      collect (fun ch => channel_addListener ch event listener options) chs;
    mret (ListenerArray listeners)
  else
    l ← super_addListener event listener options;
    mret (OneListener l).

(** [addOneTimeListener(event, listener, options = {})] *)
Definition addOneTimeListener (event : string) (listener : ListenerArg)
    (options : Options.t) : M Listeners :=
  addListener event listener (OObject (Options.set_remaining 1 options)).

(** [hasListener(event, listener, options = {})] *)
Definition hasListener (event : string) (listener : ListenerArg)
    (options : OptionsArg) : M bool :=
  let '(listener, options) := legacy false listener options in
  let options := options_of options in
  (if validation
      && bool_decide (event ∈ InputChannel.EVENTS)
      && bool_decide (Options.channels options = None)
   then throw (Error
     "For channel-specific events, 'options.channels' must be defined.")
   else mret tt);;
  if bool_decide (event ∈ InputChannel.EVENTS) then
    chs ← lift (Utilities.sanitizeChannels (Options.channels options));
    every (fun ch => channel_hasListener ch event listener) chs
  else
    super_hasListener event listener.

(** [removeListener(event, listener, options = {})] *)
Definition removeListener (event : option string) (listener : ListenerArg)
    (options : OptionsArg) : M unit :=
  let '(listener, options) := legacy false listener options in
  let options := default_channels (options_of options) in
  match event with
  | None =>
    chs ← lift (Utilities.sanitizeChannels (Options.channels options));
    forEach (fun ch =>
               i ← get;
               match channel_at i ch with
               | Some _ =>
                 channel_removeListener ch None LUndefined Options.empty
               | None => mret tt
               end)
      chs;;
    super_removeListener None LUndefined Options.empty
  | Some name =>
    if bool_decide (name ∈ InputChannel.EVENTS) then
      chs ← lift (Utilities.sanitizeChannels (Options.channels options));
      forEach (fun ch => channel_removeListener ch event listener options)
        chs
    else
      super_removeListener event listener options
  end.

(** [addForwarder(output, options = {})]; a new forwarder keeps the
    destinations and the [types] and [channels] filters. *)
Definition addForwarder (output : ForwarderArg)
    (types : option (list string)) (chans : option ChannelsArg)
    : M Forwarder.t :=
  forwarder ←
    match output with
    | AForwarder f => mret f
    | AOutputs outputs =>
      n ← allocate; mret (Forwarder.mk n outputs types chans)
    end;
  modify (fun i => set_forwarders (_forwarders i ++ [forwarder]) i);;
  mret forwarder.

(** [removeForwarder(forwarder)] *)
Definition removeForwarder (forwarder : Forwarder.t) : M unit :=
  modify (fun i =>
    set_forwarders
      (List.filter (fun item => bool_decide (item ≠ forwarder)) (_forwarders i))
      i).

(** [hasForwarder(forwarder)] *)
Definition hasForwarder (forwarder : Forwarder.t) : M bool :=
  i ← get;
  mret (bool_decide (forwarder ∈ _forwarders i)).

(** [destroy()]; [forEach] skips the hole at index 0 of [channels]. *)
Definition destroy (answer : option Exn) : M (Promise unit) :=
  async (
    removeListener None LUndefined (OObject Options.empty);;
    i ← get;
    forEach (fun ch =>
               match ch with
               | Some c => perform [ChannelDestroy (InputChannel.number c)]
               | None => mret tt
               end)
      (channels i);;
    modify (set_channels []);;
    modify (set_forwarders []);;
    modify (fun i =>
      match _midiInput i with
      | Some mi =>
        set_midiInput (Some (MIDIInput.mk (MIDIInput.port mi) false false)) i
      | None => i
      end);;
    closed ← close answer;
    match closed with
    | Rejected err => mret (Rejected err)
    | Fulfilled _ => modify (set_midiInput None);; mret (Fulfilled tt)
    end).

End Input.

(** ** The alias [on] and the read-only properties *)

(** [on(event, channel, listener, options)]: the alias hands its first
    three arguments to [addListener], which has three parameters; the
    fourth is dropped. *)
Definition on (validation : bool) (event : string) (channel : ListenerArg)
    (listener : OptionsArg) (options : Options.t) : M Listeners :=
  addListener validation event channel listener.

Module Property.

(** [this._midiInput.field]: a [TypeError] once the reference is
    cleared. *)
Definition of_transport {A} (field : MIDIPort.t -> A) : M A :=
  i ← get;
  match _midiInput i with
  | Some midiInput => mret (field (MIDIInput.port midiInput))
  | None => throw (TypeError "this._midiInput is null")
  end.

(** [get name()] *)
Definition name : M string := of_transport MIDIPort.name.

(** [get id()] *)
Definition id : M string := of_transport MIDIPort.id.

(** [get connection()] *)
Definition connection : M string := of_transport MIDIPort.connection.

(** [get manufacturer()] *)
Definition manufacturer : M string := of_transport MIDIPort.manufacturer.

(** [get state()] *)
Definition state : M string := of_transport MIDIPort.state.

(** [get type()] *)
Definition type : M string := of_transport MIDIPort.type.

(** [get octaveOffset()] *)
Definition octaveOffset : M Z := i ← get; mret (_octaveOffset i).

End Property.

(** * Observations used by the statements *)

(** Every channel 1 to 16 is present at its index: the port has not
    been destroyed. *)
Definition intact (i : Input) : Prop :=
  Forall (fun ch => InputChannel.number <$> channel_at i ch = Some ch)
    Enumerations.MIDI_CHANNEL_NUMBERS.

(** The listeners of an event name in the port's own registry. *)
Definition port_listeners (i : Input) (event : string) : list Listener.t :=
  default [] (eventMap i !! event).

(** The listeners of an event name in the registry of channel [ch]. *)
Definition channel_listeners (i : Input) (ch : Z) (event : string)
    : list Listener.t :=
  match channel_at i ch with
  | Some c => default [] (InputChannel.eventMap c !! event)
  | None => []
  end.

(** The events emitted through the port's registry, in order. *)
Definition emitted (es : list Effect) : list (string * Event.t) :=
  omap (fun x => match x with Emit name e => Some (name, e) | _ => None end) es.

(** The events emitted by the system dispatcher: all but the
    catch-all. *)
Definition system_dispatches (es : list Effect) : list (string * Event.t) :=
  List.filter (fun ne => negb (bool_decide (ne.1 = "midimessage"))) (emitted es).

(** The messages handed to a channel assembler, with its number. *)
Definition channel_dispatches (es : list Effect) : list (Z * Event.t) :=
  omap (fun x => match x with
                 | ProcessMidiMessageEvent ch e => Some (ch, e)
                 | _ => None
                 end) es.

(** The messages handed to forwarders. *)
Definition forwarded (es : list Effect) : list (Forwarder.t * Message.t) :=
  omap (fun x => match x with Forward f m => Some (f, m) | _ => None end) es.

(** The payload of the catch-all event built by [_onMidiMessage]. *)
Definition catch_all (e : MIDIMessageEvent) (ev : Event.t) : Prop :=
  Event.type ev = Some "midimessage"
  /\ Event.message ev = Some (Message.new (mme_data e))
  /\ Event.timestamp ev = mme_timeStamp e
  /\ Event.target ev = TheInput.

(** The entries of an [options.channels] value. *)
Definition entries (c : ChannelsArg) : list chan_entry :=
  match c with
  | CSingle e => [e]
  | CArray es => es
  end.

(** The channel set of a call, in the words of the spec: the entries of
    [options.channels], validated, and all 16 channels when the option
    is omitted. *)
Definition resolved_channels (o : Options.t) : Exn + list Z :=
  match Options.channels o with
  | None => inr Enumerations.MIDI_CHANNEL_NUMBERS
  | Some c => Utilities.sanitizeChannels (Some c)
  end.

(** A transport for the examples. *)
Definition demo_transport : MIDIInput.t :=
  MIDIInput.mk
    (MIDIPort.mk "open" "input-0" "Maker" "Keyboard" "connected" "input")
    false false.

(** A listener registered with callback [f] is among [ls]. *)
Definition has_matching (ls : list Listener.t) (f : callback) : Prop :=
  exists l, l ∈ ls /\ Listener.callback l = f.

(** The example port with two forwarders attached, in this order. *)
Definition with_two_forwarders : State :=
  mkState
    (set_forwarders
       [Forwarder.mk 0 [7%nat] None None; Forwarder.mk 1 [8%nat] None None]
       (new_Input demo_transport))
    [] 2.

(** The state a computation ends in. *)
Definition final_state {A} (r : Outcome A) : State :=
  match r with
  | Return _ s => s
  | Throw _ s => s
  end.

(** The example port after [addListener("noteon", f, {channels: [1, 2]})]. *)
Definition with_listeners : State :=
  final_state
    (addListener true "noteon" (LFunction 0%nat)
       (OObject (Options.of_channels (Some (CArray [ChNum 1; ChNum 2]))))
       (initial demo_transport)).

(** The example port after [destroy()], the transport accepting. *)
Definition destroyed : State :=
  final_state (destroy true None (initial demo_transport)).

(** * Invariants, frames and observations of the further properties *)

(** [triple P m Q E]: started in a state of [P], the computation [m]
    returns [a] in a state of [Q a], or throws in a state of [E]. *)
Definition triple {A} (P : State -> Prop) (m : M A)
    (Q : A -> State -> Prop) (E : State -> Prop) : Prop :=
  forall s, P s ->
    match m s with
    | Return a s' => Q a s'
    | Throw _ s' => E s'
    end.

(** [keeps I m]: [m] keeps the invariant [I], however it ends. *)
Definition keeps {A} (I : State -> Prop) (m : M A) : Prop :=
  triple I m (fun _ => I) I.

(** Every listener of the registry has an identity below [n]. *)
Definition registry_below (n : nat) (m : gmap string (list Listener.t)) : Prop :=
  forall event ls, m !! event = Some ls ->
    Forall (fun l => (Listener.id l < n)%nat) ls.

(** A port in use: the 16 channels are in place, the transport is
    referenced with both handlers bound, and every listener was created
    before the next identity to be handed out. *)
Definition well_formed (s : State) : Prop :=
  intact (this s)
  /\ (exists port, _midiInput (this s) = Some (MIDIInput.mk port true true))
  /\ registry_below (fresh s) (eventMap (this s))
  /\ (forall ch c, channel_at (this s) ch = Some c ->
        registry_below (fresh s) (InputChannel.eventMap c)).

(** The calls a user or the transport can make on a port, [destroy]
    apart. *)
Inductive Call :=
| OnMidiMessage (e : MIDIMessageEvent)
| OnStateChange (time : timestamp) (port : MIDIPort.t)
| Open (answer : option Exn)
| Close (answer : option Exn)
| AddListener (validation : bool) (event : string) (listener : ListenerArg)
    (options : OptionsArg)
| AddOneTimeListener (validation : bool) (event : string)
    (listener : ListenerArg) (options : Options.t)
| On (validation : bool) (event : string) (channel : ListenerArg)
    (listener : OptionsArg) (options : Options.t)
| HasListener (validation : bool) (event : string) (listener : ListenerArg)
    (options : OptionsArg)
| RemoveListener (validation : bool) (event : option string)
    (listener : ListenerArg) (options : OptionsArg)
| AddForwarder (output : ForwarderArg) (types : option (list string))
    (chans : option ChannelsArg)
| RemoveForwarder (forwarder : Forwarder.t)
| HasForwarder (forwarder : Forwarder.t).

(** The state after a call, whether it returned or threw. *)
Definition after (c : Call) (s : State) : State :=
  match c with
  | OnMidiMessage e => final_state (_onMidiMessage e s)
  | OnStateChange time port => final_state (_onStateChange time port s)
  | Open answer => final_state (open answer s)
  | Close answer => final_state (close answer s)
  | AddListener v event listener options =>
    final_state (addListener v event listener options s)
  | AddOneTimeListener v event listener options =>
    final_state (addOneTimeListener v event listener options s)
  | On v event channel listener options =>
    final_state (on v event channel listener options s)
  | HasListener v event listener options =>
    final_state (hasListener v event listener options s)
  | RemoveListener v event listener options =>
    final_state (removeListener v event listener options s)
  | AddForwarder output types chans =>
    final_state (addForwarder output types chans s)
  | RemoveForwarder forwarder => final_state (removeForwarder forwarder s)
  | HasForwarder forwarder => final_state (hasForwarder forwarder s)
  end.

(** The number of the channel object in a slot of the [channels] array,
    if there is one. *)
Definition number_of (slot : option InputChannel.t) : option Z :=
  InputChannel.number <$> slot.

(** The numbers of the channel objects in the [channels] array, in
    index order. *)
Definition channel_numbers (i : Input) : list Z :=
  omap number_of (channels i).

(** Nothing is left of a destroyed port: no channel, no forwarder, no
    listener. *)
Definition emptied (i : Input) : Prop :=
  channels i = [] /\ _forwarders i = [] /\ eventMap i = ∅.

(** What the subscription methods have no business with: the effects
    on the outside, the transport, the forwarders, the octave offset. *)
Definition outside (s : State) :=
  (effects s, _midiInput (this s), _forwarders (this s), _octaveOffset (this s)).

(** What the forwarder methods have no business with: the effects, the
    transport, the listeners of the port and of the channels. *)
Definition beside_forwarders (s : State) :=
  (effects s, _midiInput (this s), eventMap (this s), channels (this s),
   _octaveOffset (this s)).

(** The state agrees with [s0] on what [outside] lists. *)
Definition same_outside (s0 s : State) : Prop := outside s = outside s0.

(** The same, and no identity was drawn either. *)
Definition same_frame (s0 s : State) : Prop :=
  outside s = outside s0 /\ fresh s = fresh s0.

(** The listeners that a removal with a callback argument and criteria
    leaves in place, in their order: those that do not match all of the
    criteria given. *)
Definition kept (listener : ListenerArg) (o : Options.t)
    (ls : list Listener.t) : list Listener.t :=
  List.filter (fun l => negb (EventEmitter.matches listener o l)) ls.


(** The identities of the listeners whose callback ran, in order. *)
Definition invoked_ids (es : list Effect) : list nat :=
  omap (fun x => match x with
                 | Invoke l _ => Some (Listener.id l)
                 | _ => None
                 end) es.


(** Two event objects agree on everything but [type] and [song]. *)
Definition same_payload (e e' : Event.t) : Prop :=
  Event.timestamp e' = Event.timestamp e
  /\ Event.target e' = Event.target e
  /\ Event.message e' = Event.message e
  /\ Event.data e' = Event.data e
  /\ Event.rawData e' = Event.rawData e
  /\ Event.statusByte e' = Event.statusByte e
  /\ Event.dataBytes e' = Event.dataBytes e.

(** * The monad *)

Ltac mrun :=
  unfold mbind, M_bind, mret, M_ret, get, modify, perform, throw, allocate;
  simpl.

Lemma bind_Return {A B} (m : M A) (k : A -> M B) s a s' :
  m s = Return a s' -> (m ≫= k) s = k a s'.
Proof. intros H. unfold mbind, M_bind. by rewrite H. Qed.

Lemma bind_inv {A B} (m : M A) (k : A -> M B) s b s1 :
  (m ≫= k) s = Return b s1 ->
  exists a s2, m s = Return a s2 /\ k a s2 = Return b s1.
Proof.
  unfold mbind, M_bind. destruct (m s) as [a s2|e s2]; [eauto|done].
Qed.

Lemma async_fulfilled {A} (body : M (Promise A)) s a s1 :
  async body s = Return (Fulfilled a) s1 -> body s = Return (Fulfilled a) s1.
Proof. unfold async. destruct (body s); intros; by simplify_eq. Qed.

(** * The channel array *)

Lemma intact_channel i ch :
  intact i -> 1 <= ch <= 16 ->
  exists c, channel_at i ch = Some c /\ InputChannel.number c = ch.
Proof.
  intros Hi Hch. unfold intact in Hi. rewrite Forall_forall in Hi.
  assert (Hin : ch ∈ Enumerations.MIDI_CHANNEL_NUMBERS).
  { unfold Enumerations.MIDI_CHANNEL_NUMBERS.
    apply list_elem_of_In. simpl. lia. }
  specialize (Hi ch Hin).
  destruct (channel_at i ch) as [c|]; simplify_eq/=. eauto.
Qed.

Lemma intact_new_Input mi : intact (new_Input mi).
Proof. unfold intact. repeat constructor. Qed.

Lemma channel_at_nonneg i ch : is_Some (channel_at i ch) -> 0 <= ch.
Proof.
  unfold channel_at. destruct (Z.ltb_spec ch 0); [|done].
  by intros [? ?].
Qed.

Lemma channel_at_store_eq i ch c :
  is_Some (channel_at i ch) -> channel_at (store_channel ch c i) ch = Some c.
Proof.
  unfold channel_at, store_channel. simpl.
  destruct (ch <? 0); [by intros [? ?]|].
  intros [c0 Hc0].
  destruct (channels i !! Z.to_nat ch) as [oc|] eqn:Hl; [|done].
  rewrite list_lookup_insert_eq; [done|].
  by eapply lookup_lt_Some.
Qed.

Lemma channel_at_store_ne i ch ch' c :
  is_Some (channel_at i ch) -> ch' <> ch ->
  channel_at (store_channel ch c i) ch' = channel_at i ch'.
Proof.
  intros Hsome Hne. apply channel_at_nonneg in Hsome.
  unfold channel_at, store_channel. simpl.
  destruct (Z.ltb_spec ch' 0); [done|].
  rewrite list_lookup_insert_ne; [done|]. lia.
Qed.

Lemma intact_store i ch c c' :
  intact i -> channel_at i ch = Some c ->
  InputChannel.number c' = InputChannel.number c ->
  intact (store_channel ch c' i).
Proof.
  unfold intact. rewrite !Forall_forall. intros Hi Hc Hn x Hx.
  destruct (decide (x = ch)) as [->|Hne].
  - rewrite channel_at_store_eq by (rewrite Hc; eauto).
    specialize (Hi ch Hx). rewrite Hc in Hi. simpl in *. congruence.
  - rewrite channel_at_store_ne by (rewrite ?Hc; eauto). by apply Hi.
Qed.

(** * The decoder *)

Lemma new_classified bytes :
  let m := Message.new bytes in
  (Message.isSystemMessage m = true /\ Message.isChannelMessage m = false)
  \/ (Message.isSystemMessage m = false /\ Message.isChannelMessage m = true
      /\ 1 <= Message.channel m <= 16).
Proof.
  destruct bytes as [|status rest]; simpl; [by left|].
  destruct (_ && _) eqn:Hrange.
  - destruct (Message.channel_kind _) as [[kind n]|]; simpl; [|by left].
    right. repeat split; try done.
    + change 15 with (Z.ones 4). rewrite Z.land_ones by lia.
      pose proof (Z.mod_pos_bound status (2 ^ 4)). lia.
    + change 15 with (Z.ones 4). rewrite Z.land_ones by lia.
      pose proof (Z.mod_pos_bound status (2 ^ 4)). lia.
  - destruct (status =? 240); simpl; [by left|].
    destruct (Message.system_kind _) as [[kind n]|]; simpl; by left.
Qed.

Lemma system_kind_names status kind n :
  Message.system_kind status = Some (kind, n) ->
  kind <> "midimessage" /\ kind <> "" /\ kind <> "unknownmidimessage"
  /\ (kind = "songselect" <-> status = 243).
Proof.
  unfold Message.system_kind.
  repeat (case_match; [intros [= <- <-]; repeat split; try done; lia|]).
  done.
Qed.

(** The name under which the system dispatcher emits is never the
    catch-all name. *)
Lemma system_type_not_catch_all bytes :
  or_string (Message.type (Message.new bytes)) "unknownmidimessage"
  <> "midimessage".
Proof.
  destruct bytes as [|status rest]; simpl; [done|].
  destruct (_ && _).
  - destruct (Message.channel_kind _) as [[kind n]|] eqn:Hk; simpl; [|done].
    unfold Message.channel_kind in Hk.
    repeat (case_match; [by simplify_eq|]). done.
  - destruct (status =? 240); simpl; [done|].
    destruct (Message.system_kind status) as [[kind n]|] eqn:Hk; simpl; [|done].
    destruct (system_kind_names _ _ _ Hk) as (H1 & H2 & _).
    destruct kind; [done|]. exact H1.
Qed.

(** * Emission and the demultiplexer *)

Lemma emit_run name e s :
  exists invoked m,
    emit name e s
    = Return tt (mkState (set_eventMap m (this s))
                   (effects s ++ Emit name e :: ((fun l => Invoke l e) <$> invoked))
                   (fresh s)).
Proof.
  unfold emit. mrun.
  destruct (EventEmitter.emit name (eventMap (this s))) as [invoked m].
  by exists invoked, m.
Qed.

Lemma forEach_forward m fs s :
  forEach (fun f => perform [Forward f m]) fs s
  = Return tt (mkState (this s) (effects s ++ ((fun f => Forward f m) <$> fs))
                 (fresh s)).
Proof.
  revert s. induction fs as [|f fs IH]; intros s; simpl.
  - mrun. rewrite app_nil_r. by destruct s.
  - mrun. rewrite IH. simpl. by rewrite <- app_assoc.
Qed.

Lemma _parseEvent_run e message data s :
  Event.message e = Some message -> Event.data e = Some data ->
  let type := or_string (Message.type message) "unknownmidimessage" in
  exists e' invoked m,
    _parseEvent e s
    = Return tt (mkState (set_eventMap m (this s))
                   (effects s ++ Emit type e' :: ((fun l => Invoke l e') <$> invoked))
                   (fresh s))
    /\ Event.type e' = Some type
    /\ Event.message e' = Some message
    /\ (type = "songselect" ->
        Event.song e' = Some (match data !! 1%nat with
                              | Some byte => Num (byte + 1)
                              | None => NaN
                              end)).
Proof.
  intros Hm Hd type. unfold _parseEvent. rewrite Hm, Hd. fold type.
  case_bool_decide as Hty.
  - mrun.
    set (e' := Event.set_song _ _).
    destruct (emit_run type e' s) as (invoked & m & Hrun).
    exists e', invoked, m. rewrite <- Hty at 1. split; [exact Hrun|].
    by repeat split.
  - mrun.
    destruct (emit_run type (Event.set_type type e) s) as (invoked & m & Hrun).
    exists (Event.set_type type e), invoked, m. split; [exact Hrun|].
    by repeat split.
Qed.

(** A system message: catch-all, one emission by the system dispatcher,
    then the forwarders. *)
Lemma _onMidiMessage_system e s :
  let message := Message.new (mme_data e) in
  let type := or_string (Message.type message) "unknownmidimessage" in
  Message.isSystemMessage message = true ->
  exists ev ev' invoked invoked' s',
    _onMidiMessage e s = Return tt s'
    /\ effects s'
       = effects s
         ++ Emit "midimessage" ev :: ((fun l => Invoke l ev) <$> invoked)
         ++ Emit type ev' :: ((fun l => Invoke l ev') <$> invoked')
         ++ ((fun f => Forward f message) <$> _forwarders (this s))
    /\ catch_all e ev
    /\ Event.type ev' = Some type
    /\ Event.message ev' = Some message
    /\ (type = "songselect" ->
        Event.song ev' = Some (match mme_data e !! 1%nat with
                               | Some byte => Num (byte + 1)
                               | None => NaN
                               end)).
Proof.
  intros message type Hsys. unfold _onMidiMessage. fold message.
  set (ev := Event.mk _ _ _ _ _ _ _ _ _).
  destruct (emit_run "midimessage" ev s) as (invoked & m & Hemit).
  rewrite Hsys.
  set (s1 := mkState _ _ _) in Hemit.
  destruct (_parseEvent_run ev message (Message.data message) s1 eq_refl eq_refl)
    as (ev' & invoked' & m' & Hparse & Hty & Hmsg & Hsong).
  set (s2 := mkState _ _ _) in Hparse.
  exists ev, ev', invoked, invoked'. eexists. split.
  - erewrite bind_Return by exact Hemit. cbv beta.
    erewrite bind_Return by exact Hparse.
    mrun. apply forEach_forward.
  - simpl. split.
    + by repeat (rewrite <- app_assoc; simpl).
    + split; [done|]. split; [exact Hty|]. split; [exact Hmsg|].
      intros Hss. rewrite (Hsong Hss).
      assert (Message.data message = mme_data e) as ->; [|done].
      unfold message, Message.new.
      repeat case_match; reflexivity.
Qed.

(** A channel message: catch-all, the channel's assembler, then the
    forwarders. *)
Lemma _onMidiMessage_channel e s :
  let message := Message.new (mme_data e) in
  intact (this s) ->
  Message.isSystemMessage message = false ->
  exists ev invoked s',
    _onMidiMessage e s = Return tt s'
    /\ effects s'
       = effects s
         ++ Emit "midimessage" ev :: ((fun l => Invoke l ev) <$> invoked)
         ++ ProcessMidiMessageEvent (Message.channel message) ev
         :: ((fun f => Forward f message) <$> _forwarders (this s))
    /\ catch_all e ev
    /\ 1 <= Message.channel message <= 16.
Proof.
  intros message Hi Hsys. unfold _onMidiMessage. fold message.
  set (ev := Event.mk _ _ _ _ _ _ _ _ _).
  destruct (emit_run "midimessage" ev s) as (invoked & m & Hemit).
  rewrite Hsys.
  destruct (new_classified (mme_data e)) as [[Hs _]|(_ & Hch & Hrange)];
    [fold message in Hs; congruence|].
  fold message in Hch, Hrange. rewrite Hch.
  destruct (intact_channel _ _ Hi Hrange) as (c & Hc & _).
  exists ev, invoked. eexists. split.
  - erewrite bind_Return by exact Hemit. cbv beta.
    erewrite bind_Return.
    + mrun. apply forEach_forward.
    + unfold channel_processMidiMessageEvent, with_channel. mrun.
      unfold channel_at in *. simpl. rewrite Hc. reflexivity.
  - simpl. split; [|done].
    by repeat (rewrite <- app_assoc; simpl).
Qed.

(** * Reading the effect log *)

Lemma emitted_app es1 es2 : emitted (es1 ++ es2) = emitted es1 ++ emitted es2.
Proof. apply omap_app. Qed.

Lemma emitted_invokes e ls : emitted ((fun l => Invoke l e) <$> ls) = [].
Proof. by induction ls. Qed.

Lemma emitted_forwards m fs : emitted ((fun f => Forward f m) <$> fs) = [].
Proof. by induction fs. Qed.

Lemma channel_dispatches_app es1 es2 :
  channel_dispatches (es1 ++ es2)
  = channel_dispatches es1 ++ channel_dispatches es2.
Proof. apply omap_app. Qed.

Lemma channel_dispatches_invokes e ls :
  channel_dispatches ((fun l => Invoke l e) <$> ls) = [].
Proof. by induction ls. Qed.

Lemma channel_dispatches_forwards m fs :
  channel_dispatches ((fun f => Forward f m) <$> fs) = [].
Proof. by induction fs. Qed.

Lemma forwarded_app es1 es2 :
  forwarded (es1 ++ es2) = forwarded es1 ++ forwarded es2.
Proof. apply omap_app. Qed.

Lemma forwarded_invokes e ls : forwarded ((fun l => Invoke l e) <$> ls) = [].
Proof. by induction ls. Qed.

Lemma forwarded_forwards m fs :
  forwarded ((fun f => Forward f m) <$> fs) = (fun f => (f, m)) <$> fs.
Proof. induction fs; simpl; [done|]. by f_equal. Qed.

Ltac read_log :=
  repeat (rewrite ?emitted_app, ?channel_dispatches_app, ?forwarded_app,
            ?emitted_invokes, ?emitted_forwards, ?channel_dispatches_invokes,
            ?channel_dispatches_forwards, ?forwarded_invokes,
            ?forwarded_forwards, ?app_nil_r;
          simpl).

(** * Resolving the channel set *)

Lemma sanitize_inr c chs :
  Utilities.sanitizeChannels c = inr chs ->
  Forall (fun ch => 1 <= ch <= 16) chs.
Proof.
  unfold Utilities.sanitizeChannels.
  destruct (mapM _ _) as [chs'|] eqn:Hm; [|done].
  intros [= <-]. apply mapM_Some in Hm.
  induction Hm as [|e ch es chs' He _ IH]; constructor; [|done].
  destruct e as [n|]; simpl in He; [|done].
  destruct (_ && _) eqn:Hr; [|done]. simplify_eq. lia.
Qed.

Lemma sanitize_invalid c e :
  e ∈ entries c -> Utilities.valid_channel e = None ->
  exists what, Utilities.sanitizeChannels (Some c) = inl (ValidationError what).
Proof.
  intros Hin Hinv. unfold Utilities.sanitizeChannels.
  fold (entries c).
  destruct (mapM Utilities.valid_channel (entries c)) as [chs|] eqn:Hm; [|eauto].
  exfalso. assert (is_Some (mapM Utilities.valid_channel (entries c))) as Hs
    by (rewrite Hm; eauto).
  apply mapM_is_Some in Hs. rewrite Forall_forall in Hs.
  specialize (Hs e Hin). simpl in Hs. rewrite Hinv in Hs. by destruct Hs.
Qed.

Lemma sanitize_default o :
  Utilities.sanitizeChannels (Options.channels (default_channels o))
  = resolved_channels o.
Proof.
  unfold default_channels, resolved_channels.
  destruct (Options.channels o) eqn:Hc; simpl; [by rewrite Hc|reflexivity].
Qed.

Lemma legacy_object validation keep listener o :
  legacy validation keep listener (OObject o) = (listener, OObject o).
Proof. by destruct validation. Qed.

(** * Clearing registries *)

Lemma channel_removeListener_run ch event listener o s c :
  channel_at (this s) ch = Some c ->
  channel_removeListener ch event listener o s
  = Return tt
      (mkState
         (store_channel ch
            (InputChannel.set_eventMap
               (EventEmitter.removeListener event listener o
                  (InputChannel.eventMap c)) c)
            (this s))
         (effects s) (fresh s)).
Proof.
  intros Hc. unfold channel_removeListener, with_channel. mrun.
  by rewrite Hc.
Qed.

Lemma forEach_clear chs s :
  exists s',
    forEach (fun ch =>
               i ← get;
               match channel_at i ch with
               | Some _ =>
                 channel_removeListener ch None LUndefined Options.empty
               | None => mret tt
               end) chs s
    = Return tt s'
    /\ eventMap (this s') = eventMap (this s)
    /\ _midiInput (this s') = _midiInput (this s)
    /\ _forwarders (this s') = _forwarders (this s)
    /\ effects s' = effects s
    /\ fresh s' = fresh s
    /\ forall ch,
         channel_at (this s') ch
         = if bool_decide (ch ∈ chs)
           then InputChannel.set_eventMap ∅ <$> channel_at (this s) ch
           else channel_at (this s) ch.
Proof.
  revert s. induction chs as [|x chs IH]; intros s.
  - exists s. simpl. by repeat split.
  - simpl. destruct (channel_at (this s) x) as [c|] eqn:Hx.
    + set (s1 := mkState
                   (store_channel x (InputChannel.set_eventMap ∅ c) (this s))
                   (effects s) (fresh s)).
      destruct (IH s1) as (s' & Hrun & Hmap & Hmi & Hfw & Heff & Hfr & Hch).
      exists s'. split.
      { erewrite bind_Return; [exact Hrun|].
        unfold mbind, M_bind, get. rewrite Hx.
        by rewrite (channel_removeListener_run _ _ _ _ _ c). }
      repeat split; try done.
      intros ch. rewrite Hch. simpl.
      destruct (decide (ch = x)) as [->|Hne].
      * rewrite channel_at_store_eq by (rewrite Hx; eauto).
        rewrite Hx. rewrite (bool_decide_eq_true_2 (x ∈ x :: chs))
          by apply list_elem_of_here.
        by case_bool_decide.
      * rewrite channel_at_store_ne by (rewrite ?Hx; eauto).
        rewrite (bool_decide_ext (ch ∈ x :: chs) (ch ∈ chs)); [done|].
        rewrite elem_of_cons. tauto.
    + destruct (IH s) as (s' & Hrun & Hmap & Hmi & Hfw & Heff & Hfr & Hch).
      exists s'. split.
      { erewrite bind_Return; [exact Hrun|].
        unfold mbind, M_bind, get. by rewrite Hx. }
      repeat split; try done.
      intros ch. rewrite Hch.
      destruct (decide (ch = x)) as [->|Hne].
      * rewrite Hx. by repeat case_bool_decide.
      * rewrite (bool_decide_ext (ch ∈ x :: chs) (ch ∈ chs)); [done|].
        rewrite elem_of_cons. tauto.
Qed.

Lemma removeListener_all_run validation listener o chs s :
  resolved_channels o = inr chs ->
  exists s',
    removeListener validation None listener (OObject o) s = Return tt s'
    /\ eventMap (this s') = ∅
    /\ _midiInput (this s') = _midiInput (this s)
    /\ _forwarders (this s') = _forwarders (this s)
    /\ effects s' = effects s
    /\ forall ch,
         channel_at (this s') ch
         = if bool_decide (ch ∈ chs)
           then InputChannel.set_eventMap ∅ <$> channel_at (this s) ch
           else channel_at (this s) ch.
Proof.
  intros Hres. unfold removeListener. rewrite legacy_object. simpl.
  rewrite sanitize_default, Hres. simpl.
  destruct (forEach_clear chs s)
    as (s1 & Hrun & Hmap & Hmi & Hfw & Heff & Hfr & Hch).
  eexists. split.
  { erewrite bind_Return by reflexivity. cbv beta.
    erewrite bind_Return by exact Hrun. reflexivity. }
  simpl. repeat split; try done.
Qed.

Lemma forEach_destroy cs s :
  exists es,
    forEach (fun ch : option InputChannel.t =>
               match ch with
               | Some c => perform [ChannelDestroy (InputChannel.number c)]
               | None => mret tt
               end) cs s
    = Return tt (mkState (this s) (effects s ++ es) (fresh s)).
Proof.
  revert s. induction cs as [|[c|] cs IH]; intros s; simpl.
  - exists []. rewrite app_nil_r. by destruct s.
  - destruct (IH (mkState (this s)
                    (effects s ++ [ChannelDestroy (InputChannel.number c)])
                    (fresh s))) as (es & Hrun).
    exists (ChannelDestroy (InputChannel.number c) :: es).
    erewrite bind_Return by reflexivity. rewrite Hrun. simpl.
    by rewrite <- app_assoc.
  - destruct (IH s) as (es & Hrun). exists es.
    erewrite bind_Return by reflexivity. exact Hrun.
Qed.

(** [destroy()] settles to a fulfilled promise when the transport
    accepts to close, and the transport reference is then cleared. *)
Lemma destroy_fulfilled validation s :
  exists s',
    destroy validation None s = Return (Fulfilled tt) s'
    /\ _midiInput (this s') = None
    /\ channels (this s') = []
    /\ _forwarders (this s') = []
    /\ eventMap (this s') = ∅.
Proof.
  destruct (removeListener_all_run validation LUndefined Options.empty
              Enumerations.MIDI_CHANNEL_NUMBERS s eq_refl)
    as (s1 & Hrun1 & Hmap & _).
  destruct (forEach_destroy (channels (this s1)) s1) as (es & Hrun2).
  unfold destroy, async.
  erewrite bind_Return by exact Hrun1. cbv beta.
  erewrite bind_Return by reflexivity. cbv beta.
  erewrite bind_Return by exact Hrun2. cbv beta.
  unfold close, async. mrun.
  destruct (_midiInput (this s1)) eqn:Hmi; simpl; rewrite ?Hmi; simpl;
    (eexists; split; [reflexivity|]; simpl; by repeat split).
Qed.

(** * Adding and finding listeners on channels *)

Lemma addListener_lookup target n event f o (m : gmap string (list Listener.t)) event' :
  let l := (EventEmitter.addListener target n event f o m).1 in
  let m' := (EventEmitter.addListener target n event f o m).2 in
  default [] (m' !! event')
  = if decide (event' = event)
    then (if Options.prepend o then l :: default [] (m !! event)
          else default [] (m !! event) ++ [l])
    else default [] (m !! event').
Proof.
  simpl. destruct (decide (event' = event)) as [->|Hne].
  - by rewrite lookup_insert_eq.
  - by rewrite lookup_insert_ne.
Qed.

Lemma channel_addListener_step event f o x s :
  intact (this s) -> 1 <= x <= 16 ->
  exists l s1,
    channel_addListener x event (LFunction f) o s = Return l s1
    /\ intact (this s1)
    /\ Listener.callback l = f
    /\ Listener.event l = event
    /\ Listener.target l = ChannelEmitter x
    /\ Listener.id l = fresh s
    /\ fresh s1 = S (fresh s)
    /\ channel_listeners (this s1) x event
       = (if Options.prepend o then l :: channel_listeners (this s) x event
          else channel_listeners (this s) x event ++ [l])
    /\ (forall ch event', (ch, event') <> (x, event) ->
          channel_listeners (this s1) ch event'
          = channel_listeners (this s) ch event')
    /\ (forall ch, ch <> x -> channel_at (this s1) ch = channel_at (this s) ch)
    /\ eventMap (this s1) = eventMap (this s)
    /\ _forwarders (this s1) = _forwarders (this s)
    /\ effects s1 = effects s.
Proof.
  intros Hi Hx. destruct (intact_channel _ _ Hi Hx) as (c & Hc & Hn).
  set (r := EventEmitter.addListener (ChannelEmitter (InputChannel.number c))
              (fresh s) event f o (InputChannel.eventMap c)).
  exists r.1,
    (mkState (store_channel x (InputChannel.set_eventMap r.2 c) (this s))
       (effects s) (S (fresh s))).
  assert (Hsome : is_Some (channel_at (this s) x)) by (rewrite Hc; eauto).
  split.
  { unfold channel_addListener, with_channel, create_listener. mrun.
    by rewrite Hc. }
  split; [by eapply intact_store|].
  simpl. rewrite Hn. do 5 (split; [done|]).
  split; [|split; [|split; [|done]]].
  - unfold channel_listeners. rewrite channel_at_store_eq by done.
    rewrite Hc. simpl.
    pose proof (addListener_lookup (ChannelEmitter (InputChannel.number c))
                  (fresh s) event f o (InputChannel.eventMap c) event) as Hl.
    simpl in Hl. rewrite decide_True in Hl by done. rewrite Hn in Hl.
    exact Hl.
  - intros ch event' Hne. unfold channel_listeners.
    destruct (decide (ch = x)) as [->|Hch].
    + rewrite channel_at_store_eq by done. rewrite Hc. simpl.
      rewrite lookup_insert_ne; [done|]. congruence.
    + by rewrite channel_at_store_ne.
  - intros ch Hch. by rewrite channel_at_store_ne.
Qed.

Lemma collect_addListener event f o chs :
  forall s,
  intact (this s) -> Forall (fun ch => 1 <= ch <= 16) chs ->
  exists ls s',
    collect (fun ch => channel_addListener ch event (LFunction f) o) chs s
    = Return ls s'
    /\ intact (this s')
    /\ Forall2 (fun ch l =>
                  Listener.callback l = f /\ Listener.event l = event
                  /\ Listener.target l = ChannelEmitter ch
                  /\ l ∈ channel_listeners (this s') ch event) chs ls
    /\ Listener.id <$> ls = seq (fresh s) (length chs)
    /\ fresh s' = (fresh s + length chs)%nat
    /\ (forall ch l, l ∈ channel_listeners (this s) ch event ->
          l ∈ channel_listeners (this s') ch event)
    /\ (forall ch,
          length (channel_listeners (this s') ch event)
          = (length (channel_listeners (this s) ch event)
             + length (filter (fun x => x = ch) chs))%nat)
    /\ (forall ch event', event' <> event ->
          channel_listeners (this s') ch event'
          = channel_listeners (this s) ch event')
    /\ (forall ch, ch ∉ chs -> channel_at (this s') ch = channel_at (this s) ch)
    /\ eventMap (this s') = eventMap (this s)
    /\ _forwarders (this s') = _forwarders (this s)
    /\ effects s' = effects s.
Proof.
  induction chs as [|x chs IH]; intros s Hi Hall.
  - exists [], s. simpl. repeat split; try done; lia.
  - apply Forall_cons in Hall as [Hx Hall].
    destruct (channel_addListener_step event f o x s Hi Hx)
      as (l & s1 & Hrun1 & Hi1 & Hcb & Hev & Htg & Hid & Hfr1 & Hls1 & Hoth1
          & Hat1 & Hmap1 & Hfw1 & Heff1).
    destruct (IH s1 Hi1 Hall)
      as (ls & s' & Hrun & Hi' & Hall2 & Hids & Hfr & Hmono & Hlen & Hoth
          & Hat & Hmap & Hfw & Heff).
    exists (l :: ls), s'. split.
    { simpl. erewrite bind_Return by exact Hrun1. cbv beta.
      erewrite bind_Return by exact Hrun. reflexivity. }
    split; [done|].
    assert (Hl1 : l ∈ channel_listeners (this s1) x event).
    { rewrite Hls1. destruct (Options.prepend o);
        rewrite ?elem_of_cons, ?elem_of_app, ?list_elem_of_singleton; auto. }
    split; [constructor; [by auto|done]|].
    split; [by rewrite fmap_cons, Hid, Hids, Hfr1|].
    split; [simpl; lia|].
    split.
    { intros ch l0 Hin. apply Hmono.
      destruct (decide (ch = x)) as [->|Hne].
      - rewrite Hls1. destruct (Options.prepend o);
          rewrite ?elem_of_cons, ?elem_of_app; auto.
      - rewrite Hoth1 by congruence. done. }
    split.
    { intros ch. rewrite Hlen. rewrite filter_cons.
      destruct (decide (x = ch)) as [->|Hne].
      - rewrite Hls1. destruct (Options.prepend o); simpl;
          rewrite ?length_app; simpl; lia.
      - rewrite Hoth1 by congruence. lia. }
    split.
    { intros ch event' Hne. rewrite Hoth by done. apply Hoth1. congruence. }
    split.
    { intros ch Hnin. apply not_elem_of_cons in Hnin as [Hne Hnin].
      rewrite Hat by done. by apply Hat1. }
    repeat split; congruence.
Qed.

(** [addListener] for a channel-scoped event name. *)
Lemma addListener_channel_scoped validation event f o chs s :
  intact (this s) ->
  event ∈ InputChannel.EVENTS ->
  resolved_channels o = inr chs ->
  exists ls s',
    addListener validation event (LFunction f) (OObject o) s
    = Return (ListenerArray ls) s'
    /\ intact (this s')
    /\ length ls = length chs
    /\ NoDup ls
    /\ Forall2 (fun ch l =>
                  Listener.callback l = f /\ Listener.event l = event
                  /\ Listener.target l = ChannelEmitter ch
                  /\ l ∈ channel_listeners (this s') ch event) chs ls
    /\ (forall ch,
          length (channel_listeners (this s') ch event)
          = (length (channel_listeners (this s) ch event)
             + length (filter (fun x => x = ch) chs))%nat)
    /\ (forall ch event', event' <> event ->
          channel_listeners (this s') ch event'
          = channel_listeners (this s) ch event')
    /\ (forall ch, ch ∉ chs -> channel_at (this s') ch = channel_at (this s) ch)
    /\ eventMap (this s') = eventMap (this s).
Proof.
  intros Hi Hev Hres.
  pose proof Hres as Hrange. rewrite <- sanitize_default in Hrange.
  apply sanitize_inr in Hrange.
  destruct (collect_addListener event f (default_channels o) chs s Hi Hrange)
    as (ls & s' & Hrun & Hi' & Hall2 & Hids & _ & _ & Hlen & Hoth & Hat & Hmap & _).
  exists ls, s'. split.
  { unfold addListener. rewrite legacy_object. simpl.
    rewrite bool_decide_eq_true_2 by done.
    rewrite sanitize_default, Hres. simpl.
    erewrite bind_Return by reflexivity. cbv beta.
    erewrite bind_Return by exact Hrun. reflexivity. }
  split; [done|].
  split; [by apply Forall2_length in Hall2|].
  split; [|done].
  apply (NoDup_fmap_1 Listener.id). rewrite Hids. apply NoDup_seq.
Qed.

Lemma hasListener_function event f (m : gmap string (list Listener.t)) :
  EventEmitter.hasListener event (LFunction f) m = true
  <-> has_matching (default [] (m !! event)) f.
Proof.
  unfold EventEmitter.hasListener, has_matching. rewrite existsb_exists.
  split; intros (l & Hin & Hcb); exists l.
  - apply list_elem_of_In in Hin. simpl in Hcb.
    by apply bool_decide_eq_true in Hcb.
  - apply list_elem_of_In in Hin. simpl. by rewrite bool_decide_eq_true.
Qed.

Lemma every_hasListener event f chs s :
  intact (this s) -> Forall (fun ch => 1 <= ch <= 16) chs ->
  exists b,
    every (fun ch => channel_hasListener ch event (LFunction f)) chs s
    = Return b s
    /\ (b = true <->
        forall ch, ch ∈ chs ->
          has_matching (channel_listeners (this s) ch event) f).
Proof.
  intros Hi. induction chs as [|x chs IH]; intros Hall.
  - exists true. split; [done|]. split; [|done].
    intros _ ch Hin. by apply elem_of_nil in Hin.
  - apply Forall_cons in Hall as [Hx Hall].
    destruct (IH Hall) as (b & Hrun & Hb).
    destruct (intact_channel _ _ Hi Hx) as (c & Hc & _).
    assert (Hone : channel_hasListener x event (LFunction f) s
                   = Return (EventEmitter.hasListener event (LFunction f)
                               (InputChannel.eventMap c)) s).
    { unfold channel_hasListener, with_channel. mrun. by rewrite Hc. }
    assert (Hx' : EventEmitter.hasListener event (LFunction f)
                    (InputChannel.eventMap c) = true
                  <-> has_matching (channel_listeners (this s) x event) f).
    { unfold channel_listeners. rewrite Hc. apply hasListener_function. }
    simpl. erewrite bind_Return by exact Hone. cbv beta.
    destruct (EventEmitter.hasListener _ _ _).
    + exists b. split; [exact Hrun|]. rewrite Hb. split.
      * intros Hrest ch Hin. apply elem_of_cons in Hin as [->|Hin];
          [by apply Hx'|by apply Hrest].
      * intros Hall' ch Hin. apply Hall'. by apply list_elem_of_further.
    + exists false. split; [done|]. split; [done|].
      intros Hall'. apply Hx', Hall', list_elem_of_here.
Qed.

(** * The demultiplexer: routing, order of effects, system events *)

(** C1: every decoded message handled by [_onMidiMessage] is routed
    exactly once: either the system dispatcher emits one event for it,
    or exactly one channel assembler, the one at [channels[message.channel]]
    with the channel in 1..16, receives it; never both and never neither.
    A message of the unknown kind goes to the system dispatcher. *)
Theorem C1_message_routed_exactly_once (e : MIDIMessageEvent) (s : State) :
  intact (this s) ->
  let message := Message.new (mme_data e) in
  exists s' new,
    _onMidiMessage e s = Return tt s'
    /\ effects s' = effects s ++ new
    /\ (length (system_dispatches new) + length (channel_dispatches new) = 1)%nat
    /\ (forall name ev, (name, ev) ∈ system_dispatches new ->
          Message.isSystemMessage message = true
          /\ Event.message ev = Some message)
    /\ (forall ch ev, (ch, ev) ∈ channel_dispatches new ->
          Message.isChannelMessage message = true
          /\ ch = Message.channel message /\ 1 <= ch <= 16
          /\ Event.message ev = Some message)
    /\ (Message.type message = None -> length (system_dispatches new) = 1%nat).
Proof.
  intros Hi message.
  destruct (Message.isSystemMessage message) eqn:Hsys.
  - destruct (_onMidiMessage_system e s Hsys)
      as (ev & ev' & invoked & invoked' & s' & Hrun & Heff & Hev & Hty & Hmsg & _).
    fold message in Heff, Hmsg.
    pose proof (system_type_not_catch_all (mme_data e)) as Hne.
    fold message in Hne.
    eexists s', _. split; [exact Hrun|]. split; [exact Heff|].
    unfold system_dispatches. read_log.
    rewrite bool_decide_eq_false_2 by exact Hne. simpl.
    split; [done|]. split; [|split; [|done]].
    + intros name ev0 Hin. apply list_elem_of_singleton in Hin.
      by simplify_eq.
    + intros ch ev0 Hin. by apply elem_of_nil in Hin.
  - destruct (_onMidiMessage_channel e s Hi Hsys)
      as (ev & invoked & s' & Hrun & Heff & Hev & Hrange).
    fold message in Heff, Hrange.
    destruct (new_classified (mme_data e)) as [[Hs _]|(_ & Hch & _)];
      [fold message in Hs; congruence|fold message in Hch].
    eexists s', _. split; [exact Hrun|]. split; [exact Heff|].
    unfold system_dispatches. read_log.
    split; [done|]. split; [|split].
    + intros name ev0 Hin. by apply elem_of_nil in Hin.
    + intros ch ev0 Hin. apply list_elem_of_singleton in Hin.
      simplify_eq. destruct Hev as (_ & Hm & _). done.
    + intros Hty. exfalso. revert Hsys Hty. unfold message, Message.new.
      repeat case_match; simpl; congruence.
Qed.

Lemma C1_witness :
  intact (this (initial demo_transport))
  /\ exists s' new,
       _onMidiMessage {| mme_data := [144; 64; 127]; mme_timeStamp := 0 |}
         (initial demo_transport)
       = Return tt s'
       /\ effects s' = effects (initial demo_transport) ++ new
       /\ (length (system_dispatches new) + length (channel_dispatches new)
           = 1)%nat.
Proof.
  assert (Hi : intact (this (initial demo_transport)))
    by (unfold intact; simpl; repeat constructor).
  split; [exact Hi|].
  destruct (C1_message_routed_exactly_once
              {| mme_data := [144; 64; 127]; mme_timeStamp := 0 |}
              (initial demo_transport) Hi)
    as (s' & new & Hrun & Heff & Hone & _).
  exists s', new. auto.
Defined.

(** C5: for every received message the port first emits the catch-all
    [midimessage] event, then does the system or channel dispatch, and
    last calls [forward] on every attached forwarder, in the order of the
    forwarder list, whatever the listeners are; [addForwarder] attaches
    at the end of that list, so the list is in attachment order. *)
Theorem C5_catch_all_then_dispatch_then_forwarders
    (e : MIDIMessageEvent) (s : State) :
  intact (this s) ->
  let message := Message.new (mme_data e) in
  (exists s' ev dispatch,
     _onMidiMessage e s = Return tt s'
     /\ effects s'
        = effects s ++ Emit "midimessage" ev :: dispatch
          ++ ((fun f => Forward f message) <$> _forwarders (this s))
     /\ catch_all e ev
     /\ emitted dispatch = system_dispatches dispatch
     /\ (length (system_dispatches dispatch)
         + length (channel_dispatches dispatch) = 1)%nat
     /\ forwarded dispatch = [])
  /\ (forall output types chans,
        exists f s1,
          addForwarder output types chans s = Return f s1
          /\ _forwarders (this s1) = _forwarders (this s) ++ [f]).
Proof.
  intros Hi message. split.
  - destruct (Message.isSystemMessage message) eqn:Hsys.
    + destruct (_onMidiMessage_system e s Hsys)
        as (ev & ev' & invoked & invoked' & s' & Hrun & Heff & Hev & _).
      fold message in Heff.
      pose proof (system_type_not_catch_all (mme_data e)) as Hne.
      fold message in Hne.
      exists s', ev,
        (((fun l => Invoke l ev) <$> invoked)
         ++ Emit (or_string (Message.type message) "unknownmidimessage") ev'
         :: ((fun l => Invoke l ev') <$> invoked')).
      split; [exact Hrun|].
      split; [rewrite Heff; by repeat (rewrite <- app_assoc; simpl)|].
      split; [exact Hev|].
      unfold system_dispatches. read_log.
      by rewrite bool_decide_eq_false_2 by exact Hne.
    + destruct (_onMidiMessage_channel e s Hi Hsys)
        as (ev & invoked & s' & Hrun & Heff & Hev & _).
      fold message in Heff.
      exists s', ev,
        (((fun l => Invoke l ev) <$> invoked)
         ++ [ProcessMidiMessageEvent (Message.channel message) ev]).
      split; [exact Hrun|].
      split; [rewrite Heff; by repeat (rewrite <- app_assoc; simpl)|].
      split; [exact Hev|].
      unfold system_dispatches. by read_log.
  - intros [f|outputs] types chans; eexists _, _; split; reflexivity.
Qed.

Lemma C5_witness :
  intact (this with_two_forwarders)
  /\ exists s' ev dispatch,
       _onMidiMessage {| mme_data := [248]; mme_timeStamp := 0 |}
         with_two_forwarders
       = Return tt s'
       /\ effects s'
          = Emit "midimessage" ev :: dispatch
            ++ [Forward (Forwarder.mk 0 [7%nat] None None) (Message.new [248]);
                Forward (Forwarder.mk 1 [8%nat] None None) (Message.new [248])].
Proof.
  assert (Hi : intact (this with_two_forwarders))
    by (unfold intact; simpl; repeat constructor).
  split; [exact Hi|].
  destruct (C5_catch_all_then_dispatch_then_forwarders
              {| mme_data := [248]; mme_timeStamp := 0 |}
              with_two_forwarders Hi)
    as ((s' & ev & dispatch & Hrun & Heff & _) & _).
  exists s', ev, dispatch. split; [exact Hrun|exact Heff].
Defined.

(** C8: a frame whose status byte is none of the recognised ones makes
    [_onMidiMessage] return normally, and the port emits exactly two
    events: the catch-all and one [unknownmidimessage]. *)
Theorem C8_unknown_status_byte
    (status : Z) (rest : list Z) (t : timestamp) (s : State) :
  ~ (128 <= status <= 239) ->
  status ∉ [240; 241; 242; 243; 246; 248; 250; 251; 252; 254; 255] ->
  exists s' new ev ev',
    _onMidiMessage {| mme_data := status :: rest; mme_timeStamp := t |} s
    = Return tt s'
    /\ effects s' = effects s ++ new
    /\ emitted new = [("midimessage", ev); ("unknownmidimessage", ev')]
    /\ Event.type ev' = Some "unknownmidimessage"
    /\ Event.message ev' = Some (Message.new (status :: rest)).
Proof.
  intros Hrange Hnot.
  set (e := {| mme_data := status :: rest; mme_timeStamp := t |}).
  assert (Hnew : Message.new (mme_data e)
                 = Message.mk (status :: rest) (Some status) rest None 0
                     false true).
  { simpl. rewrite !not_elem_of_cons in Hnot.
    destruct ((128 <=? status) && (status <=? 239)) eqn:Hr; [lia|].
    unfold Message.system_kind.
    repeat match goal with
           | |- context [?a =? ?b] => rewrite (proj2 (Z.eqb_neq a b)) by lia
           end.
    done. }
  assert (Hsys : Message.isSystemMessage (Message.new (mme_data e)) = true)
    by by rewrite Hnew.
  destruct (_onMidiMessage_system e s Hsys)
    as (ev & ev' & invoked & invoked' & s' & Hrun & Heff & Hev & Hty & Hmsg & _).
  rewrite Hnew in Heff, Hty. simpl in Heff, Hty.
  eexists s', _, ev, ev'. split; [exact Hrun|]. split; [exact Heff|].
  read_log. by repeat split.
Qed.

Lemma C8_witness :
  exists s' ev ev',
    _onMidiMessage {| mme_data := [244]; mme_timeStamp := 0 |}
      (initial demo_transport)
    = Return tt s'
    /\ emitted (effects s')
       = [("midimessage", ev); ("unknownmidimessage", ev')].
Proof.
  destruct (C8_unknown_status_byte 244 [] 0 (initial demo_transport))
    as (s' & new & ev & ev' & Hrun & Heff & Hem & _).
  - lia.
  - apply (bool_decide_unpack _). vm_compute. exact I.
  - exists s', ev, ev'. rewrite Heff. auto.
Defined.

(** C9: a song-select frame [0xF3, byte, ...] makes the port emit, after
    the catch-all, exactly one [songselect] event whose [song] is
    [byte + 1]. *)
Theorem C9_songselect_song
    (byte : Z) (rest : list Z) (t : timestamp) (s : State) :
  exists s' new ev ev',
    _onMidiMessage {| mme_data := 243 :: byte :: rest; mme_timeStamp := t |} s
    = Return tt s'
    /\ effects s' = effects s ++ new
    /\ emitted new = [("midimessage", ev); ("songselect", ev')]
    /\ Event.type ev' = Some "songselect"
    /\ Event.song ev' = Some (Num (byte + 1)).
Proof.
  set (e := {| mme_data := 243 :: byte :: rest; mme_timeStamp := t |}).
  destruct (_onMidiMessage_system e s eq_refl)
    as (ev & ev' & invoked & invoked' & s' & Hrun & Heff & Hev & Hty & Hmsg & Hsong).
  simpl in Heff, Hty, Hsong.
  eexists s', _, ev, ev'. split; [exact Hrun|]. split; [exact Heff|].
  read_log. split; [done|]. split; [done|]. by apply Hsong.
Qed.

Lemma C9_witness :
  exists s' ev ev',
    _onMidiMessage {| mme_data := [243; 4]; mme_timeStamp := 0 |}
      (initial demo_transport)
    = Return tt s'
    /\ emitted (effects s') = [("midimessage", ev); ("songselect", ev')]
    /\ Event.song ev' = Some (Num 5).
Proof.
  destruct (C9_songselect_song 4 [] 0 (initial demo_transport))
    as (s' & new & ev & ev' & Hrun & Heff & Hem & _ & Hsong).
  exists s', ev, ev'. rewrite Heff. auto.
Defined.

(** * The subscription API *)

(** C2: on a port that has its channels, [addListener] with a
    channel-scoped event name returns an array with one new listener per
    entry of the resolved channel set, each in the registry of its
    channel and distinct from the others; the set is all 16 channels
    when [options.channels] is omitted; the port's registry is untouched.
    With any other event name it returns a single listener, not an
    array, which is the one listener added to the port's registry; the
    channels are untouched. *)
Theorem C2_addListener_fan_out
    (validation : bool) (event : string) (f : callback) (o : Options.t)
    (s : State) :
  intact (this s) ->
  (event ∈ InputChannel.EVENTS ->
   forall chs, resolved_channels o = inr chs ->
     exists ls s',
       addListener validation event (LFunction f) (OObject o) s
       = Return (ListenerArray ls) s'
       /\ length ls = length chs
       /\ NoDup ls
       /\ Forall2 (fun ch l =>
                     Listener.callback l = f /\ Listener.event l = event
                     /\ Listener.target l = ChannelEmitter ch
                     /\ l ∈ channel_listeners (this s') ch event) chs ls
       /\ (forall ch,
             length (channel_listeners (this s') ch event)
             = (length (channel_listeners (this s) ch event)
                + length (filter (fun x => x = ch) chs))%nat)
       /\ (forall ch event', event' <> event ->
             channel_listeners (this s') ch event'
             = channel_listeners (this s) ch event')
       /\ eventMap (this s') = eventMap (this s))
  /\ (event ∈ InputChannel.EVENTS -> Options.channels o = None ->
      exists ls s',
        addListener validation event (LFunction f) (OObject o) s
        = Return (ListenerArray ls) s'
        /\ length ls = 16%nat
        /\ forall ch, 1 <= ch <= 16 ->
             length (channel_listeners (this s') ch event)
             = S (length (channel_listeners (this s) ch event)))
  /\ (event ∉ InputChannel.EVENTS ->
      exists l s',
        addListener validation event (LFunction f) (OObject o) s
        = Return (OneListener l) s'
        /\ Listener.callback l = f /\ Listener.event l = event
        /\ Listener.target l = PortEmitter
        /\ port_listeners (this s') event
           = (if Options.prepend o then l :: port_listeners (this s) event
              else port_listeners (this s) event ++ [l])
        /\ (forall event', event' <> event ->
              port_listeners (this s') event' = port_listeners (this s) event')
        /\ channels (this s') = channels (this s)).
Proof.
  intros Hi.
  assert (Hfan : event ∈ InputChannel.EVENTS ->
    forall chs, resolved_channels o = inr chs ->
     exists ls s',
       addListener validation event (LFunction f) (OObject o) s
       = Return (ListenerArray ls) s'
       /\ length ls = length chs
       /\ NoDup ls
       /\ Forall2 (fun ch l =>
                     Listener.callback l = f /\ Listener.event l = event
                     /\ Listener.target l = ChannelEmitter ch
                     /\ l ∈ channel_listeners (this s') ch event) chs ls
       /\ (forall ch,
             length (channel_listeners (this s') ch event)
             = (length (channel_listeners (this s) ch event)
                + length (filter (fun x => x = ch) chs))%nat)
       /\ (forall ch event', event' <> event ->
             channel_listeners (this s') ch event'
             = channel_listeners (this s) ch event')
       /\ eventMap (this s') = eventMap (this s)).
  { intros Hev chs Hres.
    destruct (addListener_channel_scoped validation event f o chs s Hi Hev Hres)
      as (ls & s' & Hrun & _ & Hlen & Hnd & Hall2 & Hcount & Hoth & _ & Hmap).
    by exists ls, s'. }
  split; [exact Hfan|]. split.
  - intros Hev Hnone.
    destruct (Hfan Hev Enumerations.MIDI_CHANNEL_NUMBERS)
      as (ls & s' & Hrun & Hlen & _ & _ & Hcount & _).
    { unfold resolved_channels. by rewrite Hnone. }
    exists ls, s'. split; [exact Hrun|]. split; [exact Hlen|].
    intros ch Hch. rewrite Hcount.
    assert (ch = 1 \/ ch = 2 \/ ch = 3 \/ ch = 4 \/ ch = 5 \/ ch = 6 \/ ch = 7
            \/ ch = 8 \/ ch = 9 \/ ch = 10 \/ ch = 11 \/ ch = 12 \/ ch = 13
            \/ ch = 14 \/ ch = 15 \/ ch = 16) as Hcases by lia.
    repeat (destruct Hcases as [->|Hcases]; [simpl; lia|]).
    subst ch. simpl. lia.
  - intros Hev.
    set (r := EventEmitter.addListener PortEmitter (fresh s) event f o
                (eventMap (this s))).
    exists r.1, (mkState (set_eventMap r.2 (this s)) (effects s) (S (fresh s))).
    split.
    { unfold addListener. rewrite legacy_object. simpl.
      rewrite bool_decide_eq_false_2 by done. reflexivity. }
    do 3 (split; [done|]). split; [|split; [|done]].
    + unfold port_listeners. simpl. by rewrite lookup_insert_eq.
    + intros event' Hne. unfold port_listeners. simpl.
      by rewrite lookup_insert_ne.
Qed.

Lemma C2_witness :
  intact (this (initial demo_transport))
  /\ "noteon" ∈ InputChannel.EVENTS
  /\ exists ls s',
       addListener true "noteon" (LFunction 0%nat)
         (OObject (Options.of_channels (Some (CArray [ChNum 1; ChNum 3]))))
         (initial demo_transport)
       = Return (ListenerArray ls) s'
       /\ length ls = 2%nat.
Proof.
  assert (Hi : intact (this (initial demo_transport)))
    by (unfold intact; simpl; repeat constructor).
  assert (Hev : "noteon" ∈ InputChannel.EVENTS)
    by (apply (bool_decide_unpack _); vm_compute; exact I).
  split; [exact Hi|]. split; [exact Hev|].
  destruct (C2_addListener_fan_out true "noteon" 0%nat
              (Options.of_channels (Some (CArray [ChNum 1; ChNum 3])))
              (initial demo_transport) Hi)
    as (Hfan & _).
  destruct (Hfan Hev [1; 3] eq_refl) as (ls & s' & Hrun & Hlen & _).
  exists ls, s'. auto.
Defined.

(** C3: on a port that has its channels, [hasListener] for a
    channel-scoped event name, a callback and a valid [options.channels]
    returns [true] exactly when every channel of the resolved set has a
    listener of that name with that callback.  So when channel 2 has no
    such [noteon] listener, after [addListener] on channels 1 and 3
    [hasListener] on channels 1, 2 and 3 returns [false]. *)
Theorem C3_hasListener_is_conjunctive
    (validation : bool) (f : callback) (s : State) :
  intact (this s) ->
  (forall event o c chs,
     event ∈ InputChannel.EVENTS ->
     Options.channels o = Some c ->
     Utilities.sanitizeChannels (Some c) = inr chs ->
     exists b,
       hasListener validation event (LFunction f) (OObject o) s = Return b s
       /\ (b = true <->
           forall ch, ch ∈ chs ->
             has_matching (channel_listeners (this s) ch event) f))
  /\ (~ has_matching (channel_listeners (this s) 2 "noteon") f ->
      exists ls s1,
        addListener validation "noteon" (LFunction f)
          (OObject (Options.of_channels (Some (CArray [ChNum 1; ChNum 3])))) s
        = Return (ListenerArray ls) s1
        /\ length ls = 2%nat
        /\ hasListener validation "noteon" (LFunction f)
             (OObject (Options.of_channels
                         (Some (CArray [ChNum 1; ChNum 2; ChNum 3])))) s1
           = Return false s1).
Proof.
  intros Hi.
  assert (Hgen : forall s0, intact (this s0) -> forall event o c chs,
     event ∈ InputChannel.EVENTS ->
     Options.channels o = Some c ->
     Utilities.sanitizeChannels (Some c) = inr chs ->
     exists b,
       hasListener validation event (LFunction f) (OObject o) s0 = Return b s0
       /\ (b = true <->
           forall ch, ch ∈ chs ->
             has_matching (channel_listeners (this s0) ch event) f)).
  { intros s0 Hi0 event o c chs Hev Hc Hres.
    destruct (every_hasListener event f chs s0 Hi0 (sanitize_inr _ _ Hres))
      as (b & Hrun & Hb).
    exists b. split; [|exact Hb].
    unfold hasListener. rewrite legacy_object. simpl.
    rewrite (bool_decide_eq_true_2 _ Hev). rewrite Hc.
    rewrite andb_false_r. rewrite Hres.
    erewrite bind_Return by reflexivity. cbv beta.
    erewrite bind_Return by reflexivity. exact Hrun. }
  split; [by apply Hgen|].
  intros Hno.
  assert (Hev : "noteon" ∈ InputChannel.EVENTS)
    by (apply (bool_decide_unpack _); by vm_compute).
  set (o13 := Options.of_channels (Some (CArray [ChNum 1; ChNum 3]))).
  destruct (addListener_channel_scoped validation "noteon" f o13 [1; 3] s
              Hi Hev eq_refl)
    as (ls & s1 & Hrun & Hi1 & Hlen & _ & _ & _ & _ & Hat & _).
  exists ls, s1. split; [exact Hrun|]. split; [exact Hlen|].
  set (o123 := Options.of_channels (Some (CArray [ChNum 1; ChNum 2; ChNum 3]))).
  destruct (Hgen s1 Hi1 "noteon" o123 _ [1; 2; 3] Hev eq_refl eq_refl)
    as (b & Hhas & Hb).
  rewrite Hhas. f_equal.
  destruct b; [|done]. exfalso. apply Hno.
  assert (H2 : has_matching (channel_listeners (this s1) 2 "noteon") f).
  { apply Hb; [done|]. apply list_elem_of_further, list_elem_of_here. }
  unfold channel_listeners in *. rewrite Hat in H2; [done|].
  rewrite !not_elem_of_cons. repeat split; try lia. apply not_elem_of_nil.
Qed.

Lemma C3_witness :
  intact (this (initial demo_transport))
  /\ exists ls s1,
       addListener true "noteon" (LFunction 0%nat)
         (OObject (Options.of_channels (Some (CArray [ChNum 1; ChNum 3]))))
         (initial demo_transport)
       = Return (ListenerArray ls) s1
       /\ length ls = 2%nat
       /\ hasListener true "noteon" (LFunction 0%nat)
            (OObject (Options.of_channels
                        (Some (CArray [ChNum 1; ChNum 2; ChNum 3])))) s1
          = Return false s1.
Proof.
  assert (Hi : intact (this (initial demo_transport)))
    by (unfold intact; simpl; repeat constructor).
  split; [exact Hi|].
  destruct (C3_hasListener_is_conjunctive true 0%nat (initial demo_transport) Hi)
    as (_ & Hexample).
  apply Hexample.
  intros (l & Hin & _). vm_compute in Hin. inversion Hin.
Defined.

(** C4: [addListener] for a channel-scoped event name with an entry of
    [options.channels] that is an integer outside 1..16 throws a
    validation error; no listener is added, on any channel. *)
Theorem C4_invalid_channel_is_rejected
    (validation : bool) (event : string) (listener : ListenerArg)
    (o : Options.t) (c : ChannelsArg) (n : Z) (s : State) :
  event ∈ InputChannel.EVENTS ->
  Options.channels o = Some c ->
  ChNum n ∈ entries c ->
  ~ (1 <= n <= 16) ->
  exists what,
    addListener validation event listener (OObject o) s
    = Throw (ValidationError what) s.
Proof.
  intros Hev Hc Hin Hn. unfold addListener. rewrite legacy_object. simpl.
  rewrite bool_decide_eq_true_2 by done.
  rewrite sanitize_default. unfold resolved_channels. rewrite Hc.
  destruct (sanitize_invalid c (ChNum n) Hin) as [what ->]; [|by exists what].
  simpl. destruct (Z.leb_spec 1 n), (Z.leb_spec n 16); simpl; try done. lia.
Qed.

Lemma C4_witness :
  exists what,
    addListener true "noteon" (LFunction 0%nat)
      (OObject (Options.of_channels (Some (CArray [ChNum 1; ChNum 17]))))
      (initial demo_transport)
    = Throw (ValidationError what) (initial demo_transport).
Proof.
  apply (C4_invalid_channel_is_rejected true "noteon" (LFunction 0%nat)
           (Options.of_channels (Some (CArray [ChNum 1; ChNum 17])))
           (CArray [ChNum 1; ChNum 17]) 17 (initial demo_transport)).
  - apply (bool_decide_unpack _). vm_compute. exact I.
  - reflexivity.
  - apply (bool_decide_unpack _). vm_compute. exact I.
  - lia.
Defined.

(** C7, as the code has it: [removeListener] without an event name
    returns normally for every callback argument, clears the port's own
    registry, and clears the registry of every channel of the resolved
    channel set, which is all 16 channels when [options.channels] is
    omitted; the channels outside the set keep their listeners. *)
Theorem C7_remove_without_event_name
    (validation : bool) (listener : ListenerArg) (o : Options.t)
    (chs : list Z) (s : State) :
  resolved_channels o = inr chs ->
  exists s',
    removeListener validation None listener (OObject o) s = Return tt s'
    /\ eventMap (this s') = ∅
    /\ (forall ch c, ch ∈ chs -> channel_at (this s') ch = Some c ->
          InputChannel.eventMap c = ∅)
    /\ (forall ch, ch ∉ chs -> channel_at (this s') ch = channel_at (this s) ch)
    /\ (Options.channels o = None ->
        forall ch event, 1 <= ch <= 16 ->
          channel_listeners (this s') ch event = [])
    /\ effects s' = effects s.
Proof.
  intros Hres.
  destruct (removeListener_all_run validation listener o chs s Hres)
    as (s' & Hrun & Hmap & _ & _ & Heff & Hch).
  exists s'. split; [exact Hrun|]. split; [exact Hmap|].
  split; [|split; [|split; [|exact Heff]]].
  - intros ch c Hin Hc. rewrite Hch in Hc.
    rewrite bool_decide_eq_true_2 in Hc by done.
    destruct (channel_at (this s) ch); by simplify_eq/=.
  - intros ch Hnin. rewrite Hch. by rewrite bool_decide_eq_false_2.
  - intros Hnone ch event Hrange. unfold resolved_channels in Hres.
    rewrite Hnone in Hres. simplify_eq.
    unfold channel_listeners. rewrite Hch.
    rewrite bool_decide_eq_true_2 by (apply list_elem_of_In; simpl; lia).
    by destruct (channel_at (this s) ch).
Qed.

Lemma C7_witness :
  resolved_channels Options.empty = inr Enumerations.MIDI_CHANNEL_NUMBERS
  /\ exists s',
       removeListener true None LUndefined (OObject Options.empty)
         with_listeners
       = Return tt s'
       /\ eventMap (this s') = ∅
       /\ channel_listeners (this s') 2 "noteon" = [].
Proof.
  split; [reflexivity|].
  destruct (C7_remove_without_event_name true LUndefined Options.empty
              Enumerations.MIDI_CHANNEL_NUMBERS with_listeners eq_refl)
    as (s' & Hrun & Hmap & _ & _ & Hall & _).
  exists s'. split; [exact Hrun|]. split; [exact Hmap|].
  apply Hall; [reflexivity|lia].
Defined.

(** C7 as stated fails: with [options.channels] set to channel 1, the
    call without an event name returns normally and leaves the listener
    of channel 2 in place. *)
Lemma C7_counterexample :
  exists s' l,
    removeListener true None LUndefined
      (OObject (Options.of_channels (Some (CSingle (ChNum 1)))))
      with_listeners
    = Return tt s'
    /\ channel_listeners (this with_listeners) 2 "noteon" = [l]
    /\ channel_listeners (this s') 1 "noteon" = []
    /\ channel_listeners (this s') 2 "noteon" = [l].
Proof. do 2 eexists. repeat split; vm_compute; reflexivity. Qed.

(** * The port lifecycle *)

(** C6: a state-change notification is turned into exactly one of
    [opened] (connection open), [closed] (closed and connected) or
    [disconnected] (closed and disconnected, the target being a copy of
    the six identity fields and not the live object); pending and
    disconnected does nothing at all; every other combination only logs
    a warning.  The call never throws. *)
Theorem C6_state_change_translation
    (time : timestamp) (port : MIDIPort.t) (s : State) :
  let connection := MIDIPort.connection port in
  let state := MIDIPort.state port in
  exists s' new,
    _onStateChange time port s = Return tt s'
    /\ effects s' = effects s ++ new
    /\ (connection = "open" ->
        exists ev, emitted new = [("opened", ev)]
                   /\ Event.type ev = Some "opened"
                   /\ Event.target ev = TheInput)
    /\ (connection = "closed" -> state = "connected" ->
        exists ev, emitted new = [("closed", ev)]
                   /\ Event.type ev = Some "closed"
                   /\ Event.target ev = TheInput)
    /\ (connection = "closed" -> state = "disconnected" ->
        exists ev, emitted new = [("disconnected", ev)]
                   /\ Event.type ev = Some "disconnected"
                   /\ Event.target ev = Snapshot port)
    /\ (connection = "pending" -> state = "disconnected" -> s' = s /\ new = [])
    /\ (connection <> "open" ->
        ~ (connection = "closed" /\ state = "connected") ->
        ~ (connection = "closed" /\ state = "disconnected") ->
        ~ (connection = "pending" /\ state = "disconnected") ->
        new = [ConsoleWarn "This statechange event was not caught: "
                 connection state]
        /\ this s' = this s).
Proof.
  intros connection state. unfold _onStateChange.
  fold connection state.
  set (event := Event.mk _ _ _ _ _ _ _ _ _).
  destruct (bool_decide_reflect (connection = "open")) as [Hopen|Hopen].
  { destruct (emit_run "opened" (Event.set_type "opened" event) s)
      as (invoked & m & ->).
    eexists _, _. split; [reflexivity|]. split; [reflexivity|].
    read_log. repeat split; try congruence; eauto. }
  destruct (bool_decide_reflect (connection = "closed")) as [Hclosed|Hclosed];
    simpl.
  - destruct (bool_decide_reflect (state = "connected")) as [Hconn|Hconn].
    { destruct (emit_run "closed" (Event.set_type "closed" event) s)
        as (invoked & m & ->).
      eexists _, _. split; [reflexivity|]. split; [reflexivity|].
      read_log. repeat split; try congruence; eauto; tauto. }
    destruct (bool_decide_reflect (state = "disconnected")) as [Hdisc|Hdisc].
    { match goal with
      | |- context [emit ?n ?e s] =>
          destruct (emit_run n e s) as (invoked & m & ->)
      end.
      eexists _, _. split; [reflexivity|]. split; [reflexivity|].
      read_log. repeat split; try congruence; try tauto.
      intros _ _. eexists. split; [reflexivity|]. simpl.
      split; [done|]. by destruct port. }
    rewrite bool_decide_eq_false_2 by congruence. simpl.
    eexists _, _. split; [reflexivity|]. split; [reflexivity|].
    repeat split; try congruence; try tauto.
  - destruct (bool_decide_reflect (connection = "pending")) as [Hpend|Hpend];
      simpl.
    + destruct (bool_decide_reflect (state = "disconnected")) as [Hdisc|Hdisc].
      * exists s, []. split; [reflexivity|]. rewrite app_nil_r.
        repeat split; try congruence; try tauto.
      * eexists _, _. split; [reflexivity|]. split; [reflexivity|].
        repeat split; try congruence; try tauto.
    + eexists _, _. split; [reflexivity|]. split; [reflexivity|].
      repeat split; try congruence; try tauto.
Qed.

Lemma C6_witness :
  exists s' ev,
    _onStateChange 0
      (MIDIPort.mk "closed" "input-0" "Maker" "Keyboard" "disconnected" "input")
      (initial demo_transport)
    = Return tt s'
    /\ emitted (effects s') = [("disconnected", ev)]
    /\ Event.target ev
       = Snapshot (MIDIPort.mk "closed" "input-0" "Maker" "Keyboard"
                     "disconnected" "input").
Proof.
  destruct (C6_state_change_translation 0
              (MIDIPort.mk "closed" "input-0" "Maker" "Keyboard"
                 "disconnected" "input")
              (initial demo_transport))
    as (s' & new & Hrun & Heff & _ & _ & Hdisc & _).
  destruct (Hdisc eq_refl eq_refl) as (ev & Hem & _ & Htarget).
  exists s', ev. rewrite Heff. auto.
Defined.

(** C10: [close()] on a port whose transport reference is cleared
    settles to a promise fulfilled with the port itself; the transport
    is not called and nothing changes, whatever the transport would
    answer.  [destroy()] with a transport that accepts to close is
    fulfilled and clears the reference, and whenever [destroy()] is
    fulfilled the reference is cleared, so this is how a later [close()]
    behaves. *)
Theorem C10_close_without_transport (s : State) :
  _midiInput (this s) = None ->
  (forall answer, close answer s = Return (Fulfilled TheInput) s)
  /\ (forall validation s0,
        exists s1,
          destroy validation None s0 = Return (Fulfilled tt) s1
          /\ _midiInput (this s1) = None)
  /\ (forall validation answer s0 s1,
        destroy validation answer s0 = Return (Fulfilled tt) s1 ->
        _midiInput (this s1) = None).
Proof.
  intros Hnone. split; [|split].
  - intros answer. unfold close, async. mrun. by rewrite Hnone.
  - intros validation s0.
    destruct (destroy_fulfilled validation s0) as (s1 & Hrun & Hmi & _).
    by exists s1.
  - intros validation answer s0 s1 Hrun. unfold destroy in Hrun.
    apply async_fulfilled in Hrun.
    repeat (apply bind_inv in Hrun as (? & ? & _ & Hrun)).
    match type of Hrun with
    | match ?p with _ => _ end _ = _ => destruct p as [ref|err]
    end.
    + apply bind_inv in Hrun as (? & s3 & Hset & Hrun).
      unfold modify in Hset. unfold mret, M_ret in Hrun. by simplify_eq.
    + discriminate Hrun.
Qed.

Lemma C10_witness :
  _midiInput (this destroyed) = None
  /\ close None destroyed = Return (Fulfilled TheInput) destroyed.
Proof.
  split; [reflexivity|].
  apply (C10_close_without_transport destroyed). reflexivity.
Defined.

(** * Invariants of the port's computations *)

Lemma triple_consequence {A} (P P' : State -> Prop) (m : M A)
    (Q Q' : A -> State -> Prop) (E E' : State -> Prop) :
  triple P' m Q' E' ->
  (forall s, P s -> P' s) -> (forall a s, Q' a s -> Q a s) ->
  (forall s, E' s -> E s) ->
  triple P m Q E.
Proof.
  intros Hm HP HQ HE s Hs. specialize (Hm s (HP s Hs)).
  destruct (m s); auto.
Qed.

Lemma triple_ret {A} (P : State -> Prop) (a : A) Q E :
  (forall s, P s -> Q a s) -> triple P (mret a) Q E.
Proof. intros H s Hs. by apply H. Qed.

Lemma triple_throw {A} (P : State -> Prop) e (Q : A -> State -> Prop)
    (E : State -> Prop) :
  (forall s, P s -> E s) -> triple P (throw e) Q E.
Proof. intros H s Hs. by apply H. Qed.

Lemma triple_bind {A B} (P : State -> Prop) (m : M A) (k : A -> M B)
    (R : A -> State -> Prop) Q E :
  triple P m R E -> (forall a, triple (R a) (k a) Q E) ->
  triple P (m ≫= k) Q E.
Proof.
  intros Hm Hk s Hs. specialize (Hm s Hs). unfold mbind, M_bind.
  destruct (m s) as [a s'|e s']; [by apply Hk|done].
Qed.

Lemma triple_get (P : State -> Prop) E :
  triple P get (fun i s => P s /\ i = this s) E.
Proof. intros s Hs. by split. Qed.

Lemma triple_modify (P : State -> Prop) f (Q : unit -> State -> Prop) E :
  (forall s, P s -> Q tt (mkState (f (this s)) (effects s) (fresh s))) ->
  triple P (modify f) Q E.
Proof. intros H s Hs. by apply H. Qed.

Lemma triple_perform (P : State -> Prop) es (Q : unit -> State -> Prop) E :
  (forall s, P s -> Q tt (mkState (this s) (effects s ++ es) (fresh s))) ->
  triple P (perform es) Q E.
Proof. intros H s Hs. by apply H. Qed.

Lemma triple_allocate (P : State -> Prop) (Q : nat -> State -> Prop) E :
  (forall s, P s ->
     Q (fresh s) (mkState (this s) (effects s) (S (fresh s)))) ->
  triple P allocate Q E.
Proof. intros H s Hs. by apply H. Qed.

Lemma triple_lift {A} (P : State -> Prop) (r : Exn + A)
    (Q : A -> State -> Prop) (E : State -> Prop) :
  (forall s, P s -> E s) -> (forall a s, P s -> Q a s) ->
  triple P (lift r) Q E.
Proof. intros HE HQ s Hs. destruct r; simpl; [by apply HE|by apply HQ]. Qed.

Lemma keeps_ret {A} I (a : A) : keeps I (mret a).
Proof. by apply triple_ret. Qed.

Lemma keeps_throw {A} I e : keeps I (throw (A := A) e).
Proof. by apply triple_throw. Qed.

Lemma keeps_lift {A} I (r : Exn + A) : keeps I (lift r).
Proof. by apply triple_lift. Qed.

Lemma keeps_bind {A B} I (m : M A) (k : A -> M B) :
  keeps I m -> (forall a, keeps I (k a)) -> keeps I (m ≫= k).
Proof. intros Hm Hk. by eapply triple_bind. Qed.

Lemma keeps_forEach {A} I (f : A -> M unit) xs :
  (forall x, keeps I (f x)) -> keeps I (forEach f xs).
Proof.
  intros Hf. induction xs as [|x xs IH]; simpl.
  - apply keeps_ret.
  - apply keeps_bind; [apply Hf|by intros _].
Qed.

Lemma keeps_collect {A B} I (f : A -> M B) xs :
  (forall x, keeps I (f x)) -> keeps I (collect f xs).
Proof.
  intros Hf. induction xs as [|x xs IH]; simpl.
  - apply keeps_ret.
  - apply keeps_bind; [apply Hf|]. intros y.
    apply keeps_bind; [exact IH|]. intros ys. apply keeps_ret.
Qed.

Lemma keeps_every {A} I (f : A -> M bool) xs :
  (forall x, keeps I (f x)) -> keeps I (every f xs).
Proof.
  intros Hf. induction xs as [|x xs IH]; simpl.
  - apply keeps_ret.
  - apply keeps_bind; [apply Hf|]. intros [|]; [exact IH|apply keeps_ret].
Qed.

Lemma keeps_async {A} I (body : M (Promise A)) :
  keeps I body -> keeps I (async body).
Proof.
  intros Hb s Hs. specialize (Hb s Hs). unfold async.
  by destruct (body s).
Qed.

Lemma keeps_final_state {A} I (m : M A) s :
  keeps I m -> I s -> I (final_state (m s)).
Proof. intros Hm Hs. specialize (Hm s Hs). by destruct (m s). Qed.

(** * Registries and identities *)

Lemma registry_below_mono n n' (m : gmap string (list Listener.t)) :
  (n <= n')%nat -> registry_below n m -> registry_below n' m.
Proof.
  intros Hle Hm event ls Hls. eapply Forall_impl; [by eapply Hm|].
  simpl. lia.
Qed.

Lemma registry_below_empty n : registry_below n ∅.
Proof. intros event ls Hls. by rewrite lookup_empty in Hls. Qed.

Lemma registry_below_insert n event ls (m : gmap string (list Listener.t)) :
  registry_below n m -> Forall (fun l => (Listener.id l < n)%nat) ls ->
  registry_below n (<[event := ls]> m).
Proof.
  intros Hm Hls event' ls' Hl. destruct (decide (event = event')) as [->|Hne].
  - rewrite lookup_insert_eq in Hl. by simplify_eq.
  - rewrite lookup_insert_ne in Hl by done. by eapply Hm.
Qed.

Lemma registry_below_delete n event (m : gmap string (list Listener.t)) :
  registry_below n m -> registry_below n (delete event m).
Proof.
  intros Hm event' ls' Hl. apply lookup_delete_Some in Hl as [_ Hl].
  by eapply Hm.
Qed.

Lemma registry_below_default n event (m : gmap string (list Listener.t)) :
  registry_below n m ->
  Forall (fun l => (Listener.id l < n)%nat) (default [] (m !! event)).
Proof.
  intros Hm. destruct (m !! event) as [ls|] eqn:Hl; simpl; [by eapply Hm|].
  constructor.
Qed.

Lemma addListener_below target n event f o (m : gmap string (list Listener.t)) :
  registry_below n m ->
  registry_below (S n) (EventEmitter.addListener target n event f o m).2.
Proof.
  intros Hm. simpl. apply registry_below_insert.
  - eapply registry_below_mono; [|exact Hm]. lia.
  - pose proof (registry_below_default n event m Hm) as Hold.
    assert (Hold' : Forall (fun l => (Listener.id l < S n)%nat)
                      (default [] (m !! event)))
      by (eapply Forall_impl; [exact Hold|simpl; lia]).
    destruct (Options.prepend o).
    + constructor; [simpl; lia|done].
    + apply Forall_app. split; [done|]. constructor; [simpl; lia|constructor].
Qed.

Lemma removeListener_below n event listener o
    (m : gmap string (list Listener.t)) :
  registry_below n m ->
  registry_below n (EventEmitter.removeListener event listener o m).
Proof.
  intros Hm. unfold EventEmitter.removeListener.
  destruct event as [event|]; [|apply registry_below_empty].
  destruct (m !! event) as [ls|] eqn:Hls; [|done].
  assert (Hkeep : Forall (fun l => (Listener.id l < n)%nat)
            (List.filter (fun l => negb (EventEmitter.matches listener o l)) ls)).
  { apply Forall_forall. intros l Hin. apply list_elem_of_In in Hin.
    apply filter_In in Hin as [Hin _]. apply list_elem_of_In in Hin.
    specialize (Hm event ls Hls). rewrite Forall_forall in Hm. by apply Hm. }
  destruct (List.filter _ ls) as [|l keep] eqn:Hf.
  - by apply registry_below_delete.
  - by apply registry_below_insert.
Qed.

Lemma fire_id l l' : (EventEmitter.fire l).2 = Some l' -> Listener.id l' = Listener.id l.
Proof.
  unfold EventEmitter.fire. destruct (Listener.remaining l) as [n|]; simpl.
  - destruct (0 <? n); simpl; [|done].
    destruct (n - 1 <=? 0); [done|]. by intros [= <-].
  - by intros [= <-].
Qed.

Lemma emit_below n event (m : gmap string (list Listener.t)) :
  registry_below n m -> registry_below n (EventEmitter.emit event m).2.
Proof.
  intros Hm. unfold EventEmitter.emit.
  destruct (m !! event) as [ls|] eqn:Hls; [|done].
  assert (Hkeep : Forall (fun l => (Listener.id l < n)%nat)
            (omap (fun l => (EventEmitter.fire l).2) ls)).
  { apply Forall_forall. intros l' Hin.
    apply list_elem_of_omap in Hin as (l & Hin & Hfire).
    rewrite (fire_id _ _ Hfire).
    specialize (Hm event ls Hls). rewrite Forall_forall in Hm. by apply Hm. }
  destruct (omap _ ls) as [|l keep] eqn:Hf; simpl.
  - by apply registry_below_delete.
  - by apply registry_below_insert.
Qed.

(** * Well-formed ports *)

Lemma well_formed_initial midiInput : well_formed (initial midiInput).
Proof.
  split; [apply intact_new_Input|]. split; [by eexists|].
  split; [apply registry_below_empty|].
  intros ch c Hc. unfold channel_at in Hc. simpl in Hc.
  destruct (ch <? 0); [done|].
  destruct (Z.to_nat ch) as [|n]; simpl in Hc; [done|].
  assert (InputChannel.eventMap c = ∅) as ->; [|apply registry_below_empty].
  do 16 (destruct n as [|n]; [simpl in Hc; by simplify_eq|]). done.
Qed.

Lemma well_formed_effects i es es' n :
  well_formed (mkState i es n) -> well_formed (mkState i es' n).
Proof. done. Qed.

Lemma well_formed_fresh s es :
  well_formed s -> well_formed (mkState (this s) es (S (fresh s))).
Proof.
  intros (Hi & Hmi & Hp & Hc). repeat split; try done; simpl.
  - eapply registry_below_mono; [|exact Hp]. lia.
  - intros ch c Hch. eapply registry_below_mono; [|by eapply Hc]. lia.
Qed.

Lemma well_formed_eventMap s m es :
  well_formed s -> registry_below (fresh s) m ->
  well_formed (mkState (set_eventMap m (this s)) es (fresh s)).
Proof. intros (Hi & Hmi & Hp & Hc) Hm. by repeat split. Qed.

Lemma well_formed_forwarders s fs es :
  well_formed s ->
  well_formed (mkState (set_forwarders fs (this s)) es (fresh s)).
Proof. intros (Hi & Hmi & Hp & Hc). by repeat split. Qed.

Lemma well_formed_channel s ch c m es n :
  well_formed s -> channel_at (this s) ch = Some c ->
  (fresh s <= n)%nat -> registry_below n m ->
  well_formed
    (mkState (store_channel ch (InputChannel.set_eventMap m c) (this s)) es n).
Proof.
  intros (Hi & Hmi & Hp & Hc) Hch Hn Hm.
  assert (Hsome : is_Some (channel_at (this s) ch)) by (rewrite Hch; eauto).
  split; [by eapply intact_store|]. split; [done|]. split; simpl.
  - by eapply registry_below_mono.
  - intros ch' c' Hc'. destruct (decide (ch' = ch)) as [->|Hne].
    + rewrite channel_at_store_eq in Hc' by done. by simplify_eq.
    + rewrite channel_at_store_ne in Hc' by done.
      eapply registry_below_mono; [exact Hn|by eapply Hc].
Qed.

Lemma triple_with_channel {A} (P : State -> Prop) ch
    (method : InputChannel.t -> M A) Q E :
  (forall s, P s -> E s) ->
  (forall c, triple (fun s => P s /\ channel_at (this s) ch = Some c)
               (method c) Q E) ->
  triple P (with_channel ch method) Q E.
Proof.
  intros HE Hm s Hs. unfold with_channel, mbind, M_bind, get.
  destruct (channel_at (this s) ch) as [c|] eqn:Hc.
  - by apply (Hm c).
  - by apply HE.
Qed.

(** * Every method keeps a port well formed *)

Lemma keeps_get I : keeps I get.
Proof. intros s Hs. exact Hs. Qed.

Lemma keeps_wf_emit name e : keeps well_formed (emit name e).
Proof.
  intros s Hs. unfold emit, mbind, M_bind, get.
  pose proof (emit_below (fresh s) name (eventMap (this s))) as Hb.
  destruct (EventEmitter.emit name (eventMap (this s))) as [invoked m].
  simpl in *. apply (well_formed_eventMap s); [done|apply Hb, Hs].
Qed.

Lemma keeps_wf_perform es : keeps well_formed (perform es).
Proof. intros [i es0 n] Hs. by eapply well_formed_effects. Qed.

Lemma keeps_wf_parseEvent e : keeps well_formed (_parseEvent e).
Proof.
  unfold _parseEvent. destruct (Event.message e); [|apply keeps_throw].
  apply keeps_bind; [|intros; apply keeps_wf_emit].
  case_bool_decide; [|apply keeps_ret].
  destruct (Event.data e); [apply keeps_ret|apply keeps_throw].
Qed.

Lemma keeps_wf_with_channel {A} ch (method : InputChannel.t -> M A) :
  (forall c, triple (fun s => well_formed s /\ channel_at (this s) ch = Some c)
               (method c) (fun _ => well_formed) well_formed) ->
  keeps well_formed (with_channel ch method).
Proof. intros H. by apply triple_with_channel. Qed.

Lemma keeps_wf_onMidiMessage e : keeps well_formed (_onMidiMessage e).
Proof.
  unfold _onMidiMessage. apply keeps_bind; [apply keeps_wf_emit|]. intros _.
  apply keeps_bind.
  - destruct (Message.isSystemMessage _); [apply keeps_wf_parseEvent|].
    destruct (Message.isChannelMessage _); [|apply keeps_ret].
    apply keeps_wf_with_channel. intros c s [Hs _].
    by apply (keeps_wf_perform _ s).
  - intros _. apply keeps_bind; [apply keeps_get|]. intros i.
    apply keeps_forEach. intros f. apply keeps_wf_perform.
Qed.

Lemma keeps_wf_onStateChange time port :
  keeps well_formed (_onStateChange time port).
Proof.
  unfold _onStateChange.
  repeat (case_match; [apply keeps_wf_emit || apply keeps_ret|]).
  apply keeps_wf_perform.
Qed.

Lemma keeps_wf_open answer : keeps well_formed (open answer).
Proof.
  unfold open. apply keeps_async.
  apply keeps_bind; [apply keeps_get|]. intros i.
  destruct (_midiInput i); [|apply keeps_ret].
  apply keeps_bind; [apply keeps_wf_perform|]. intros _.
  destruct answer; apply keeps_ret.
Qed.

Lemma keeps_wf_close answer : keeps well_formed (close answer).
Proof.
  unfold close. apply keeps_async.
  apply keeps_bind; [apply keeps_get|]. intros i.
  destruct (_midiInput i); [|apply keeps_ret].
  apply keeps_bind; [apply keeps_wf_perform|]. intros _.
  destruct answer; apply keeps_ret.
Qed.

Lemma keeps_wf_super_addListener event listener o :
  keeps well_formed (super_addListener event listener o).
Proof.
  intros s Hs. unfold super_addListener, create_listener.
  destruct listener as [f| |]; try exact Hs.
  unfold mbind, M_bind, get, allocate, mret, M_ret. simpl.
  apply (well_formed_eventMap (mkState (this s) (effects s) (S (fresh s)))).
  - by apply well_formed_fresh.
  - simpl. apply (addListener_below PortEmitter). apply Hs.
Qed.

Lemma keeps_wf_channel_addListener ch event listener o :
  keeps well_formed (channel_addListener ch event listener o).
Proof.
  apply keeps_wf_with_channel. intros c s [Hs Hc]. unfold create_listener.
  destruct listener as [f| |]; try exact Hs.
  unfold mbind, M_bind, get, allocate, mret, M_ret. simpl.
  apply (well_formed_channel s); [done|done|lia|].
  apply (addListener_below (ChannelEmitter (InputChannel.number c))).
  destruct Hs as (_ & _ & _ & Hch). by eapply Hch.
Qed.

Lemma keeps_wf_channel_removeListener ch event listener o :
  keeps well_formed (channel_removeListener ch event listener o).
Proof.
  apply keeps_wf_with_channel. intros c s [Hs Hc].
  unfold modify. apply (well_formed_channel s); [done|done|lia|].
  apply removeListener_below.
  destruct Hs as (_ & _ & _ & Hch). by eapply Hch.
Qed.

Lemma keeps_wf_super_removeListener event listener o :
  keeps well_formed (super_removeListener event listener o).
Proof.
  intros s Hs. unfold super_removeListener, modify.
  apply well_formed_eventMap; [done|]. apply removeListener_below, Hs.
Qed.

Lemma keeps_wf_addListener validation event listener options :
  keeps well_formed (addListener validation event listener options).
Proof.
  unfold addListener.
  destruct (legacy validation true listener options) as [l o].
  case_bool_decide.
  - apply keeps_bind; [apply keeps_lift|]. intros chs.
    apply keeps_bind; [|intros; apply keeps_ret].
    apply keeps_collect. intros ch. apply keeps_wf_channel_addListener.
  - apply keeps_bind; [apply keeps_wf_super_addListener|].
    intros; apply keeps_ret.
Qed.

Lemma keeps_wf_hasListener validation event listener options :
  keeps well_formed (hasListener validation event listener options).
Proof.
  unfold hasListener.
  destruct (legacy validation false listener options) as [l o].
  apply keeps_bind; [case_match; [apply keeps_throw|apply keeps_ret]|].
  intros _. case_bool_decide.
  - apply keeps_bind; [apply keeps_lift|]. intros chs.
    apply keeps_every. intros ch. apply keeps_wf_with_channel.
    intros c s [Hs _]. exact Hs.
  - apply keeps_bind; [apply keeps_get|]. intros; apply keeps_ret.
Qed.

Lemma keeps_wf_removeListener validation event listener options :
  keeps well_formed (removeListener validation event listener options).
Proof.
  unfold removeListener.
  destruct (legacy validation false listener options) as [l o].
  destruct event as [name|].
  - case_bool_decide; [|apply keeps_wf_super_removeListener].
    apply keeps_bind; [apply keeps_lift|]. intros chs.
    apply keeps_forEach. intros ch. apply keeps_wf_channel_removeListener.
  - apply keeps_bind; [apply keeps_lift|]. intros chs.
    apply keeps_bind; [|intros; apply keeps_wf_super_removeListener].
    apply keeps_forEach. intros ch.
    apply keeps_bind; [apply keeps_get|]. intros i.
    destruct (channel_at i ch);
      [apply keeps_wf_channel_removeListener|apply keeps_ret].
Qed.

Lemma keeps_wf_addForwarder output types chans :
  keeps well_formed (addForwarder output types chans).
Proof.
  intros s Hs. unfold addForwarder.
  destruct output as [f|outputs];
    unfold mbind, M_bind, allocate, modify, mret, M_ret; simpl.
  - by apply well_formed_forwarders.
  - apply (well_formed_forwarders
             (mkState (this s) (effects s) (S (fresh s)))).
    by apply well_formed_fresh.
Qed.

Lemma keeps_wf_removeForwarder forwarder :
  keeps well_formed (removeForwarder forwarder).
Proof. intros s Hs. by apply well_formed_forwarders. Qed.

Lemma keeps_wf_hasForwarder forwarder :
  keeps well_formed (hasForwarder forwarder).
Proof. intros s Hs. exact Hs. Qed.

(** X1: a port that was constructed and then used through any sequence
    of calls other than [destroy], each returning or throwing, still has
    its 16 channels at their indices, still references its transport
    with both handlers bound, and holds only listeners created earlier
    than the next identity. *)
Theorem X1_calls_keep_the_port_well_formed
    (midiInput : MIDIInput.t) (calls : list Call) :
  well_formed (fold_left (fun s c => after c s) calls (initial midiInput)).
Proof.
  assert (Hstep : forall c s, well_formed s -> well_formed (after c s)).
  { intros c s Hs. destruct c; cbn [after].
    - exact (keeps_final_state _ _ _ (keeps_wf_onMidiMessage _) Hs).
    - exact (keeps_final_state _ _ _ (keeps_wf_onStateChange _ _) Hs).
    - exact (keeps_final_state _ _ _ (keeps_wf_open _) Hs).
    - exact (keeps_final_state _ _ _ (keeps_wf_close _) Hs).
    - exact (keeps_final_state _ _ _ (keeps_wf_addListener _ _ _ _) Hs).
    - exact (keeps_final_state _ _ _ (keeps_wf_addListener _ _ _ _) Hs).
    - exact (keeps_final_state _ _ _ (keeps_wf_addListener _ _ _ _) Hs).
    - exact (keeps_final_state _ _ _ (keeps_wf_hasListener _ _ _ _) Hs).
    - exact (keeps_final_state _ _ _ (keeps_wf_removeListener _ _ _ _) Hs).
    - exact (keeps_final_state _ _ _ (keeps_wf_addForwarder _ _ _) Hs).
    - exact (keeps_final_state _ _ _ (keeps_wf_removeForwarder forwarder) Hs).
    - exact (keeps_final_state _ _ _ (keeps_wf_hasForwarder forwarder) Hs). }
  generalize (well_formed_initial midiInput).
  generalize (initial midiInput).
  induction calls as [|c calls IH]; intros s Hs; simpl; [done|].
  apply IH, Hstep, Hs.
Qed.

(** * Channel numbers and the lifecycle methods *)

Lemma forEach_destroy_effects cs s :
  forEach (fun ch : option InputChannel.t =>
             match ch with
             | Some c => perform [ChannelDestroy (InputChannel.number c)]
             | None => mret tt
             end) cs s
  = Return tt
      (mkState (this s)
         (effects s ++ (ChannelDestroy <$> omap number_of cs))
         (fresh s)).
Proof.
  revert s. induction cs as [|[c|] cs IH]; intros s; simpl.
  - rewrite app_nil_r. by destruct s.
  - erewrite bind_Return by reflexivity. rewrite IH. simpl.
    by rewrite <- app_assoc.
  - erewrite bind_Return by reflexivity. apply IH.
Qed.

Lemma omap_number_of (cs cs' : list (option InputChannel.t)) :
  (number_of <$> cs) = (number_of <$> cs') ->
  omap number_of cs = omap number_of cs'.
Proof.
  revert cs'. induction cs as [|c cs IH]; intros [|c' cs'] H;
    try discriminate H; [done|].
  rewrite !fmap_cons in H. injection H as Hc Hcs.
  simpl. rewrite Hc. destruct (number_of c'); [f_equal|]; by apply IH.
Qed.

Lemma store_channel_numbers i ch c c' :
  channel_at i ch = Some c ->
  InputChannel.number c' = InputChannel.number c ->
  (number_of <$> channels (store_channel ch c' i))
  = (number_of <$> channels i).
Proof.
  intros Hc Hn. unfold store_channel, channel_at in *. simpl.
  destruct (ch <? 0); [done|].
  destruct (channels i !! Z.to_nat ch) as [oc|] eqn:Hl; simpl in Hc; [|done].
  subst oc. rewrite list_fmap_insert. apply list_insert_id.
  rewrite list_lookup_fmap, Hl. simpl. unfold number_of. simpl. by rewrite Hn.
Qed.

Lemma removeListener_all_numbers validation listener o chs s s' :
  resolved_channels o = inr chs ->
  removeListener validation None listener (OObject o) s = Return tt s' ->
  channel_numbers (this s') = channel_numbers (this s).
Proof.
  intros Hres Hrun.
  set (ns := number_of <$> channels (this s)).
  set (I := fun s0 : State =>
              (number_of <$> channels (this s0)) = ns).
  assert (Hkeeps : keeps I
            (removeListener validation None listener (OObject o))).
  { unfold removeListener. rewrite legacy_object.
    apply keeps_bind; [apply keeps_lift|]. intros chs'.
    apply keeps_bind.
    - apply keeps_forEach. intros ch.
      apply keeps_bind; [apply keeps_get|]. intros i.
      destruct (channel_at i ch); [|apply keeps_ret].
      apply triple_with_channel; [done|]. intros c s0 [Hs0 Hc].
      unfold modify, I in *. simpl. rewrite <- Hs0.
      by apply (store_channel_numbers _ _ c).
    - intros _ s0 Hs0. exact Hs0. }
  specialize (Hkeeps s eq_refl). rewrite Hrun in Hkeeps.
  by apply omap_number_of.
Qed.

(** * Opening and closing *)

(** X2: [open()] and [close()] never throw and never change the port
    object.  With a transport they call it exactly once and settle as
    it answers; without one, [open()] is rejected with a [TypeError] and
    makes no call. *)
Theorem X2_open_and_close_settle_as_the_transport_answers
    (answer : option Exn) (s : State) :
  (exists p s', open answer s = Return p s' /\ this s' = this s)
  /\ (exists p s', close answer s = Return p s' /\ this s' = this s)
  /\ (is_Some (_midiInput (this s)) ->
      let settled := match answer with
                     | Some err => Rejected err
                     | None => Fulfilled TheInput
                     end in
      open answer s
      = Return settled (mkState (this s) (effects s ++ [TransportOpen]) (fresh s))
      /\ close answer s
         = Return settled
             (mkState (this s) (effects s ++ [TransportClose]) (fresh s)))
  /\ (_midiInput (this s) = None ->
      exists what, open answer s = Return (Rejected (TypeError what)) s).
Proof.
  unfold open, close, async. mrun.
  destruct (_midiInput (this s)) as [mi|] eqn:Hmi; simpl.
  - split; [destruct answer; by eexists _, _|].
    split; [destruct answer; by eexists _, _|].
    split; [|done]. intros _. by destruct answer.
  - split; [by eexists _, _|]. split; [by eexists _, _|].
    split; [by intros [? ?]|]. intros _. by eexists.
Qed.

Lemma destroy_run validation answer s :
  exists s1,
    removeListener validation None LUndefined (OObject Options.empty) s
    = Return tt s1
    /\ channel_numbers (this s1) = channel_numbers (this s)
    /\ _midiInput (this s1) = _midiInput (this s)
    /\ effects s1 = effects s
    /\ destroy validation answer s
       = async
           (closed ← close answer;
            match closed with
            | Rejected err => mret (Rejected err)
            | Fulfilled _ => modify (set_midiInput None);; mret (Fulfilled tt)
            end)
           (mkState
              (mkInput
                 (match _midiInput (this s) with
                  | Some mi =>
                    Some (MIDIInput.mk (MIDIInput.port mi) false false)
                  | None => None
                  end)
                 (_octaveOffset (this s1)) [] [] ∅)
              (effects s ++ (ChannelDestroy <$> channel_numbers (this s)))
              (fresh s1)).
Proof.
  destruct (removeListener_all_run validation LUndefined Options.empty
              Enumerations.MIDI_CHANNEL_NUMBERS s eq_refl)
    as (s1 & Hrun1 & Hmap & Hmi & _ & Heff & _).
  pose proof (removeListener_all_numbers validation LUndefined Options.empty
                Enumerations.MIDI_CHANNEL_NUMBERS s s1 eq_refl Hrun1) as Hns.
  exists s1. do 4 (split; [done|]).
  unfold destroy.
  set (tail := closed ← close answer; _).
  unfold async at 1.
  erewrite bind_Return by exact Hrun1. cbv beta.
  erewrite bind_Return by reflexivity. cbv beta.
  erewrite bind_Return by apply forEach_destroy_effects. cbv beta.
  do 3 (erewrite bind_Return by reflexivity; cbv beta).
  simpl. fold (channel_numbers (this s1)). rewrite Hns, Hmi, Heff.
  unfold async.
  match goal with
  | |- match tail ?a with _ => _ end = match tail ?b with _ => _ end =>
      assert (a = b) as ->; [|reflexivity]
  end.
  f_equal. unfold set_midiInput, set_forwarders, set_channels. simpl.
  rewrite Hmap, ?Hmi. by destruct (_midiInput (this s)).
Qed.

Lemma keeps_outside_with_channel {A} (I : State -> Prop) ch
    (method : InputChannel.t -> M A) :
  (forall c, keeps I (method c)) -> keeps I (with_channel ch method).
Proof.
  intros H. apply triple_with_channel; [done|]. intros c s [Hs _].
  by apply H.
Qed.

Lemma keeps_outside_create s0 target event listener o m :
  keeps (same_outside s0) (create_listener target event listener o m).
Proof. intros s Hs. by destruct listener. Qed.

Lemma keeps_outside_channel_addListener s0 ch event listener o :
  keeps (same_outside s0) (channel_addListener ch event listener o).
Proof.
  apply keeps_outside_with_channel. intros c.
  apply keeps_bind; [apply keeps_outside_create|]. intros [l m].
  apply keeps_bind; [|intros; apply keeps_ret]. by intros s Hs.
Qed.

Lemma keeps_outside_addListener s0 validation event listener options :
  keeps (same_outside s0) (addListener validation event listener options).
Proof.
  unfold addListener.
  destruct (legacy validation true listener options) as [l o].
  case_bool_decide.
  - apply keeps_bind; [apply keeps_lift|]. intros chs.
    apply keeps_bind; [|intros; apply keeps_ret].
    apply keeps_collect. intros ch. apply keeps_outside_channel_addListener.
  - apply keeps_bind; [|intros; apply keeps_ret].
    unfold super_addListener.
    apply keeps_bind; [apply keeps_get|]. intros i.
    apply keeps_bind; [apply keeps_outside_create|]. intros [l' m].
    apply keeps_bind; [|intros; apply keeps_ret]. by intros s Hs.
Qed.

Lemma keeps_frame_channel_removeListener s0 ch event listener o :
  keeps (same_frame s0) (channel_removeListener ch event listener o).
Proof. apply keeps_outside_with_channel. intros c. by intros s Hs. Qed.

Lemma keeps_frame_removeListener s0 validation event listener options :
  keeps (same_frame s0) (removeListener validation event listener options).
Proof.
  unfold removeListener.
  destruct (legacy validation false listener options) as [l o].
  destruct event as [name|].
  - case_bool_decide; [|by intros s Hs].
    apply keeps_bind; [apply keeps_lift|]. intros chs.
    apply keeps_forEach. intros ch. apply keeps_frame_channel_removeListener.
  - apply keeps_bind; [apply keeps_lift|]. intros chs.
    apply keeps_bind; [|by intros _ s Hs].
    apply keeps_forEach. intros ch.
    apply keeps_bind; [apply keeps_get|]. intros i.
    destruct (channel_at i ch);
      [apply keeps_frame_channel_removeListener|apply keeps_ret].
Qed.

Lemma keeps_unchanged_hasListener s0 validation event listener options :
  keeps (fun s => s = s0) (hasListener validation event listener options).
Proof.
  unfold hasListener.
  destruct (legacy validation false listener options) as [l o].
  apply keeps_bind; [case_match; [apply keeps_throw|apply keeps_ret]|].
  intros _. case_bool_decide.
  - apply keeps_bind; [apply keeps_lift|]. intros chs.
    apply keeps_every. intros ch. apply keeps_outside_with_channel.
    intros c. apply keeps_ret.
  - apply keeps_bind; [apply keeps_get|]. intros; apply keeps_ret.
Qed.

(** * What the methods leave alone *)

(** X5: [addListener], [addOneTimeListener], [on] and [removeListener]
    never emit an event, invoke a callback or call the transport, and
    never touch the transport reference, the forwarders or the octave
    offset, whether they return or throw. *)
Theorem X5_subscribing_has_no_outside_effect
    (validation : bool) (listener : ListenerArg) (options : OptionsArg)
    (s : State) :
  (forall event,
     outside (final_state (addListener validation event listener options s))
     = outside s)
  /\ (forall event o,
        outside (final_state (addOneTimeListener validation event listener o s))
        = outside s)
  /\ (forall event f o,
        outside (final_state (on validation event listener f o s)) = outside s)
  /\ (forall event,
        outside (final_state (removeListener validation event listener options s))
        = outside s).
Proof.
  repeat split; intros.
  - exact (keeps_final_state _ _ _
             (keeps_outside_addListener s _ _ _ _) eq_refl).
  - exact (keeps_final_state _ _ _
             (keeps_outside_addListener s _ _ _ _) eq_refl).
  - exact (keeps_final_state _ _ _
             (keeps_outside_addListener s _ _ _ _) eq_refl).
  - exact (proj1 (keeps_final_state _ _ _
             (keeps_frame_removeListener s _ _ _ _) (conj eq_refl eq_refl))).
Qed.

(** X6: [hasListener] and [hasForwarder] are pure queries: the state
    after the call is the state before, whether the call returns or
    throws; [addForwarder] and [removeForwarder] change nothing but the
    forwarder list. *)
Theorem X6_queries_change_nothing
    (validation : bool) (event : string) (listener : ListenerArg)
    (options : OptionsArg) (forwarder : Forwarder.t) (s : State) :
  final_state (hasListener validation event listener options s) = s
  /\ final_state (hasForwarder forwarder s) = s
  /\ (forall output types chans,
        beside_forwarders (final_state (addForwarder output types chans s))
        = beside_forwarders s)
  /\ beside_forwarders (final_state (removeForwarder forwarder s))
     = beside_forwarders s.
Proof.
  split; [|split; [|split]].
  - exact (keeps_final_state _ _ _
             (keeps_unchanged_hasListener s _ _ _ _) eq_refl).
  - reflexivity.
  - by intros [f|outputs] types chans.
  - reflexivity.
Qed.

(** * Destroying a port *)

Lemma destroy_settles validation answer s :
  exists s',
    destroy validation answer s
    = Return
        (match _midiInput (this s), answer with
         | Some _, Some err => Rejected err
         | _, _ => Fulfilled tt
         end) s'
    /\ emptied (this s')
    /\ _midiInput (this s')
       = (match _midiInput (this s), answer with
          | Some mi, Some _ =>
            Some (MIDIInput.mk (MIDIInput.port mi) false false)
          | _, _ => None
          end)
    /\ _octaveOffset (this s') = _octaveOffset (this s)
    /\ fresh s' = fresh s
    /\ effects s'
       = effects s ++ (ChannelDestroy <$> channel_numbers (this s))
         ++ (match _midiInput (this s) with
             | Some _ => [TransportClose]
             | None => []
             end).
Proof.
  destruct (destroy_run validation answer s)
    as (s1 & Hrun1 & _ & _ & _ & ->).
  pose proof (keeps_final_state _ _ s
                (keeps_frame_removeListener s validation None LUndefined
                   (OObject Options.empty)) (conj eq_refl eq_refl)) as Hframe.
  rewrite Hrun1 in Hframe. simpl in Hframe. destruct Hframe as [Hout Hfr].
  assert (Hoff : _octaveOffset (this s1) = _octaveOffset (this s))
    by (unfold outside in Hout; congruence).
  unfold async, close, mbind, M_bind, get, perform, modify, mret, M_ret.
  simpl. rewrite Hoff, Hfr.
  destruct (_midiInput (this s)) as [mi|]; simpl.
  - destruct answer as [err|]; simpl;
      (eexists; split; [reflexivity|]; simpl; by rewrite <- ?app_assoc).
  - eexists; split; [reflexivity|]. simpl. by rewrite !app_nil_r.
Qed.

(** X3: [destroy()] on a port that references its transport removes
    every listener, channel and forwarder, calls [destroy] on each
    channel object in index order and then closes the transport once.
    If the transport accepts, the promise is fulfilled and the reference
    is cleared; if it refuses, the promise is rejected with its error
    and the port keeps the reference, with both handlers unbound. *)
Theorem X3_destroy_with_transport
    (validation : bool) (midiInput : MIDIInput.t) (s : State) :
  _midiInput (this s) = Some midiInput ->
  let log := effects s ++ (ChannelDestroy <$> channel_numbers (this s))
             ++ [TransportClose] in
  (exists s',
     destroy validation None s = Return (Fulfilled tt) s'
     /\ emptied (this s') /\ _midiInput (this s') = None
     /\ effects s' = log)
  /\ (forall err,
        exists s',
          destroy validation (Some err) s = Return (Rejected err) s'
          /\ emptied (this s')
          /\ _midiInput (this s')
             = Some (MIDIInput.mk (MIDIInput.port midiInput) false false)
          /\ effects s' = log).
Proof.
  intros Hmi log. split.
  - destruct (destroy_settles validation None s)
      as (s' & Hrun & Hempty & Hmi' & _ & _ & Heff).
    rewrite Hmi in Hrun, Hmi', Heff. by exists s'.
  - intros err.
    destruct (destroy_settles validation (Some err) s)
      as (s' & Hrun & Hempty & Hmi' & _ & _ & Heff).
    rewrite Hmi in Hrun, Hmi', Heff. by exists s'.
Qed.

Lemma X3_witness :
  _midiInput (this with_listeners)
  = Some (MIDIInput.mk (MIDIInput.port demo_transport) true true)
  /\ exists s',
       destroy true None with_listeners = Return (Fulfilled tt) s'
       /\ emptied (this s') /\ _midiInput (this s') = None
       /\ effects s'
          = effects with_listeners
            ++ (ChannelDestroy <$> channel_numbers (this with_listeners))
            ++ [TransportClose].
Proof.
  assert (H : _midiInput (this with_listeners)
              = Some (MIDIInput.mk (MIDIInput.port demo_transport) true true))
    by reflexivity.
  split; [exact H|].
  exact (proj1 (X3_destroy_with_transport true
                  (MIDIInput.mk (MIDIInput.port demo_transport) true true)
                  with_listeners H)).
Defined.

(** X4: once a [destroy()] has been fulfilled, any further [destroy()]
    is fulfilled too, whatever the transport would answer, and changes
    nothing: no channel is destroyed again and the transport is not
    called. *)
Theorem X4_destroy_twice
    (validation validation' : bool) (answer answer' : option Exn)
    (s s1 : State) :
  destroy validation answer s = Return (Fulfilled tt) s1 ->
  destroy validation' answer' s1 = Return (Fulfilled tt) s1.
Proof.
  intros Hrun.
  destruct (destroy_settles validation answer s)
    as (s1' & Hrun' & (Hch & Hfw & Hmap) & Hmi & _ & _ & _).
  rewrite Hrun in Hrun'.
  assert (Hcleared : _midiInput (this s1) = None).
  { destruct (_midiInput (this s)), answer; by simplify_eq. }
  assert (s1' = s1) as -> by (destruct (_midiInput (this s)), answer;
                               by simplify_eq).
  clear Hrun Hrun' Hmi.
  destruct (destroy_settles validation' answer' s1)
    as (s2 & Hrun2 & (Hch2 & Hfw2 & Hmap2) & Hmi2 & Hoff2 & Hfr2 & Heff2).
  rewrite Hcleared in Hrun2, Hmi2, Heff2. rewrite Hrun2. f_equal.
  unfold channel_numbers in Heff2. rewrite Hch in Heff2. simpl in Heff2.
  rewrite app_nil_r in Heff2.
  destruct s1 as [[mi1 off1 ch1 fw1 map1] es1 n1],
           s2 as [[mi2 off2 ch2 fw2 map2] es2 n2].
  simpl in *. by subst.
Qed.

Lemma X4_witness :
  destroy true None (initial demo_transport) = Return (Fulfilled tt) destroyed
  /\ destroy true (Some (Error "gone")) destroyed
     = Return (Fulfilled tt) destroyed.
Proof.
  assert (H : destroy true None (initial demo_transport)
              = Return (Fulfilled tt) destroyed) by (vm_compute; reflexivity).
  split; [exact H|].
  exact (X4_destroy_twice true true None (Some (Error "gone"))
           (initial demo_transport) destroyed H).
Defined.

(** * A destroyed port *)

Lemma bind_Throw {A B} (m : M A) (k : A -> M B) s e s' :
  m s = Throw e s' -> (m ≫= k) s = Throw e s'.
Proof. intros H. unfold mbind, M_bind. by rewrite H. Qed.

Lemma channel_at_no_channels i ch : channels i = [] -> channel_at i ch = None.
Proof. intros H. unfold channel_at. rewrite H. by destruct (ch <? 0). Qed.

Lemma with_channel_missing {A} ch (method : InputChannel.t -> M A) s :
  channel_at (this s) ch = None ->
  with_channel ch method s
  = Throw (TypeError "this.channels[ch] is undefined") s.
Proof. intros H. unfold with_channel, mbind, M_bind, get. by rewrite H. Qed.

(** X7: on a port without channel objects (after [destroy()]),
    [addListener], [hasListener] and [removeListener] with a
    channel-scoped event name and at least one channel throw a
    [TypeError] and change nothing, while [removeListener] without an
    event name, which tests [this.channels[ch]] first, returns
    normally. *)
Theorem X7_subscription_on_a_destroyed_port
    (validation : bool) (event : string) (listener : ListenerArg)
    (o : Options.t) (c : ChannelsArg) (ch : Z) (chs : list Z) (s : State) :
  channels (this s) = [] ->
  event ∈ InputChannel.EVENTS ->
  Options.channels o = Some c ->
  Utilities.sanitizeChannels (Some c) = inr (ch :: chs) ->
  (exists what,
     addListener validation event listener (OObject o) s
     = Throw (TypeError what) s)
  /\ (exists what,
        hasListener validation event listener (OObject o) s
        = Throw (TypeError what) s)
  /\ (exists what,
        removeListener validation (Some event) listener (OObject o) s
        = Throw (TypeError what) s)
  /\ (exists s', removeListener validation None listener (OObject o) s
                 = Return tt s').
Proof.
  intros Hch Hev Hc Hres.
  pose proof (channel_at_no_channels (this s) ch Hch) as Hnone.
  assert (Hdef : Options.channels (default_channels o) = Some c)
    by (unfold default_channels; by rewrite Hc).
  split; [|split; [|split]].
  - eexists. unfold addListener. rewrite legacy_object. simpl.
    rewrite bool_decide_eq_true_2 by done. rewrite Hdef, Hres.
    erewrite bind_Return by reflexivity. cbv beta.
    erewrite bind_Throw; [reflexivity|]. simpl. apply bind_Throw.
    by apply with_channel_missing.
  - eexists. unfold hasListener. rewrite legacy_object. simpl.
    rewrite (bool_decide_eq_true_2 _ Hev). rewrite Hc, andb_false_r, Hres.
    erewrite bind_Return by reflexivity. cbv beta.
    erewrite bind_Return by reflexivity. cbv beta. simpl.
    apply bind_Throw. by apply with_channel_missing.
  - eexists. unfold removeListener. rewrite legacy_object. simpl.
    rewrite bool_decide_eq_true_2 by done. rewrite Hdef, Hres.
    erewrite bind_Return by reflexivity. cbv beta.
    simpl. apply bind_Throw.
    by apply with_channel_missing.
  - destruct (removeListener_all_run validation listener o (ch :: chs) s)
      as (s' & Hrun & _); [|by exists s'].
    unfold resolved_channels. by rewrite Hc.
Qed.

Lemma X7_witness :
  channels (this destroyed) = []
  /\ "noteon" ∈ InputChannel.EVENTS
  /\ Utilities.sanitizeChannels (Some (CSingle (ChNum 1))) = inr [1]
  /\ exists what,
       addListener true "noteon" (LFunction 0%nat)
         (OObject (Options.of_channels (Some (CSingle (ChNum 1))))) destroyed
       = Throw (TypeError what) destroyed.
Proof.
  assert (Hc : channels (this destroyed) = []) by reflexivity.
  assert (Hev : "noteon" ∈ InputChannel.EVENTS)
    by (apply (bool_decide_unpack _); vm_compute; exact I).
  assert (Hs : Utilities.sanitizeChannels (Some (CSingle (ChNum 1)))
               = inr [1]) by reflexivity.
  split; [exact Hc|]. split; [exact Hev|]. split; [exact Hs|].
  exact (proj1 (X7_subscription_on_a_destroyed_port true "noteon"
                  (LFunction 0%nat)
                  (Options.of_channels (Some (CSingle (ChNum 1))))
                  (CSingle (ChNum 1)) 1 [] destroyed Hc Hev eq_refl Hs)).
Defined.

(** X8: when a channel message arrives on a port without channel
    objects, [_onMidiMessage] throws a [TypeError] after the catch-all
    emission: nothing is handed to a channel and no forwarder is
    called. *)
Theorem X8_channel_message_on_a_destroyed_port
    (e : MIDIMessageEvent) (s : State) :
  channels (this s) = [] ->
  Message.isSystemMessage (Message.new (mme_data e)) = false ->
  exists what s' new ev,
    _onMidiMessage e s = Throw (TypeError what) s'
    /\ effects s' = effects s ++ new
    /\ emitted new = [("midimessage", ev)]
    /\ channel_dispatches new = []
    /\ forwarded new = [].
Proof.
  intros Hch Hsys. unfold _onMidiMessage.
  set (message := Message.new (mme_data e)) in *.
  set (ev := Event.mk _ _ _ _ _ _ _ _ _).
  destruct (emit_run "midimessage" ev s) as (invoked & m & Hemit).
  rewrite Hsys.
  destruct (new_classified (mme_data e)) as [[Hs _]|(_ & Hchan & _)];
    [fold message in Hs; congruence|fold message in Hchan].
  rewrite Hchan.
  eexists _, _, _, ev. split.
  - erewrite bind_Return by exact Hemit. cbv beta.
    erewrite bind_Throw; [reflexivity|].
    unfold channel_processMidiMessageEvent. apply with_channel_missing.
    by apply channel_at_no_channels.
  - simpl. split; [reflexivity|]. by read_log.
Qed.

Lemma X8_witness :
  channels (this destroyed) = []
  /\ Message.isSystemMessage (Message.new [144; 64; 127]) = false
  /\ exists what s' new ev,
       _onMidiMessage {| mme_data := [144; 64; 127]; mme_timeStamp := 0 |}
         destroyed
       = Throw (TypeError what) s'
       /\ effects s' = effects destroyed ++ new
       /\ emitted new = [("midimessage", ev)]
       /\ channel_dispatches new = []
       /\ forwarded new = [].
Proof.
  assert (Hc : channels (this destroyed) = []) by reflexivity.
  assert (Hm : Message.isSystemMessage (Message.new [144; 64; 127]) = false)
    by reflexivity.
  split; [exact Hc|]. split; [exact Hm|].
  exact (X8_channel_message_on_a_destroyed_port
           {| mme_data := [144; 64; 127]; mme_timeStamp := 0 |}
           destroyed Hc Hm).
Defined.

(** X9: the six identity properties read the transport: with the
    reference in place each returns the transport's field and changes
    nothing; after a fulfilled [destroy()] each throws a [TypeError],
    while [octaveOffset] can still be read. *)
Theorem X9_identity_properties (s : State) :
  (forall midiInput, _midiInput (this s) = Some midiInput ->
     let port := MIDIInput.port midiInput in
     Property.name s = Return (MIDIPort.name port) s
     /\ Property.id s = Return (MIDIPort.id port) s
     /\ Property.connection s = Return (MIDIPort.connection port) s
     /\ Property.manufacturer s = Return (MIDIPort.manufacturer port) s
     /\ Property.state s = Return (MIDIPort.state port) s
     /\ Property.type s = Return (MIDIPort.type port) s)
  /\ (forall validation answer s',
        destroy validation answer s = Return (Fulfilled tt) s' ->
        exists what,
          Property.name s' = Throw (TypeError what) s'
          /\ Property.id s' = Throw (TypeError what) s'
          /\ Property.connection s' = Throw (TypeError what) s'
          /\ Property.manufacturer s' = Throw (TypeError what) s'
          /\ Property.state s' = Throw (TypeError what) s'
          /\ Property.type s' = Throw (TypeError what) s'
          /\ Property.octaveOffset s' = Return (_octaveOffset (this s)) s').
Proof.
  split.
  - intros mi Hmi port.
    unfold Property.name, Property.id, Property.connection,
      Property.manufacturer, Property.state, Property.type,
      Property.of_transport, mbind, M_bind, get.
    rewrite Hmi. by repeat split.
  - intros validation answer s' Hrun.
    destruct (destroy_settles validation answer s)
      as (s1 & Hrun' & _ & Hmi & Hoff & _).
    rewrite Hrun in Hrun'.
    assert (s1 = s') as -> by (destruct (_midiInput (this s)), answer;
                                by simplify_eq).
    assert (Hnone : _midiInput (this s') = None)
      by (destruct (_midiInput (this s)), answer; by simplify_eq).
    eexists.
    unfold Property.name, Property.id, Property.connection,
      Property.manufacturer, Property.state, Property.type,
      Property.octaveOffset, Property.of_transport, mbind, M_bind, get.
    rewrite Hnone, Hoff. by repeat split.
Qed.

(** * Removing listeners from channels *)

Lemma removeListener_lookup event listener o
    (m : gmap string (list Listener.t)) event' :
  default [] (EventEmitter.removeListener (Some event) listener o m !! event')
  = if decide (event' = event)
    then kept listener o (default [] (m !! event))
    else default [] (m !! event').
Proof.
  unfold EventEmitter.removeListener, kept.
  destruct (m !! event) as [ls|] eqn:Hls; simpl.
  - destruct (List.filter _ ls) as [|l keep] eqn:Hf.
    + destruct (decide (event' = event)) as [->|Hne].
      * by rewrite lookup_delete_eq.
      * by rewrite lookup_delete_ne.
    + destruct (decide (event' = event)) as [->|Hne].
      * by rewrite lookup_insert_eq.
      * by rewrite lookup_insert_ne.
  - destruct (decide (event' = event)) as [->|Hne]; [by rewrite Hls|done].
Qed.

Lemma kept_idempotent listener o ls :
  kept listener o (kept listener o ls) = kept listener o ls.
Proof.
  unfold kept. induction ls as [|l ls IH]; simpl; [done|].
  destruct (negb (EventEmitter.matches listener o l)) eqn:Hl; simpl;
    [rewrite Hl; by f_equal|done].
Qed.

Lemma matches_default_channels listener o l :
  EventEmitter.matches listener (default_channels o) l
  = EventEmitter.matches listener o l.
Proof. unfold default_channels. by destruct (Options.channels o). Qed.

Lemma kept_default_channels listener o ls :
  kept listener (default_channels o) ls = kept listener o ls.
Proof.
  unfold kept. induction ls as [|l ls IH]; simpl; [done|].
  rewrite matches_default_channels, IH. done.
Qed.

Lemma kept_no_match f o ls :
  Options.context o = None -> Options.remaining o = None ->
  ~ has_matching (kept (LFunction f) o ls) f.
Proof.
  intros Hc Hr (l & Hin & Hcb). unfold kept in Hin.
  apply list_elem_of_In, filter_In in Hin as [_ Hl].
  unfold EventEmitter.matches in Hl. rewrite Hc, Hr in Hl. simpl in Hl.
  rewrite bool_decide_eq_true_2 in Hl by done. done.
Qed.

Lemma forEach_channel_removeListener event listener o chs :
  forall s,
  intact (this s) -> Forall (fun ch => 1 <= ch <= 16) chs ->
  exists s',
    forEach (fun ch => channel_removeListener ch (Some event) listener o) chs s
    = Return tt s'
    /\ intact (this s')
    /\ (forall ch event',
          channel_listeners (this s') ch event'
          = if bool_decide (ch ∈ chs /\ event' = event)
            then kept listener o (channel_listeners (this s) ch event)
            else channel_listeners (this s) ch event')
    /\ eventMap (this s') = eventMap (this s).
Proof.
  induction chs as [|x chs IH]; intros s Hi Hall.
  - exists s. split; [done|]. split; [done|]. split; [|done].
    intros ch event'. rewrite bool_decide_eq_false_2; [done|].
    intros [Hin _]. by apply elem_of_nil in Hin.
  - apply Forall_cons in Hall as [Hx Hall].
    destruct (intact_channel _ _ Hi Hx) as (c & Hc & Hn).
    assert (Hsome : is_Some (channel_at (this s) x)) by (rewrite Hc; eauto).
    set (c' := InputChannel.set_eventMap
                 (EventEmitter.removeListener (Some event) listener o
                    (InputChannel.eventMap c)) c).
    set (s1 := mkState (store_channel x c' (this s)) (effects s) (fresh s)).
    assert (Hi1 : intact (this s1)) by by eapply intact_store.
    destruct (IH s1 Hi1 Hall) as (s' & Hrun & Hi' & Hls & Hmap).
    exists s'. split.
    { simpl. erewrite bind_Return; [exact Hrun|].
      by apply channel_removeListener_run. }
    split; [done|]. split; [|done].
    assert (Hone : forall ch event',
              channel_listeners (this s1) ch event'
              = if bool_decide (ch = x /\ event' = event)
                then kept listener o (channel_listeners (this s) ch event)
                else channel_listeners (this s) ch event').
    { intros ch event'. unfold channel_listeners. simpl.
      destruct (decide (ch = x)) as [->|Hne].
      - rewrite channel_at_store_eq by done. rewrite Hc. unfold c'.
        etransitivity;
          [exact (removeListener_lookup event listener o
                    (InputChannel.eventMap c) event')|].
        destruct (decide (event' = event)) as [->|Hne'].
        + by rewrite bool_decide_eq_true_2.
        + rewrite bool_decide_eq_false_2; [done|]. by intros [_ ?].
      - rewrite channel_at_store_ne by done.
        rewrite bool_decide_eq_false_2; [done|]. by intros [? _]. }
    intros ch event'. rewrite Hls.
    destruct (decide (event' = event)) as [->|Hne'].
    + destruct (decide (ch ∈ chs)) as [Hin|Hnin].
      * rewrite bool_decide_eq_true_2 by done.
        rewrite (bool_decide_eq_true_2 (ch ∈ x :: chs /\ _))
          by (split; [by apply list_elem_of_further|done]).
        rewrite Hone. case_bool_decide; [|done]. apply kept_idempotent.
      * rewrite bool_decide_eq_false_2 by (by intros [? _]).
        rewrite Hone.
        destruct (decide (ch = x)) as [->|Hne].
        -- rewrite !bool_decide_eq_true_2; [done| |done].
           split; [apply list_elem_of_here|done].
        -- rewrite !bool_decide_eq_false_2; [done| |by intros [? _]].
           intros [Hin _]. apply elem_of_cons in Hin as [?|?]; done.
    + rewrite !bool_decide_eq_false_2 by (by intros [_ ?]).
      rewrite Hone. rewrite bool_decide_eq_false_2; [done|]. by intros [_ ?].
Qed.

Lemma removeListener_channel_scoped validation event listener o chs s :
  intact (this s) ->
  event ∈ InputChannel.EVENTS ->
  resolved_channels o = inr chs ->
  exists s',
    removeListener validation (Some event) listener (OObject o) s
    = Return tt s'
    /\ intact (this s')
    /\ (forall ch event',
          channel_listeners (this s') ch event'
          = if bool_decide (ch ∈ chs /\ event' = event)
            then kept listener o (channel_listeners (this s) ch event)
            else channel_listeners (this s) ch event')
    /\ eventMap (this s') = eventMap (this s).
Proof.
  intros Hi Hev Hres.
  pose proof Hres as Hrange. rewrite <- sanitize_default in Hrange.
  apply sanitize_inr in Hrange.
  destruct (forEach_channel_removeListener event listener (default_channels o)
              chs s Hi Hrange) as (s' & Hrun & Hi' & Hls & Hmap).
  exists s'. split.
  { unfold removeListener. rewrite legacy_object. simpl.
    rewrite bool_decide_eq_true_2 by done.
    rewrite sanitize_default, Hres.
    erewrite bind_Return by reflexivity. exact Hrun. }
  split; [done|]. split; [|done].
  intros ch event'. rewrite Hls. by rewrite kept_default_channels.
Qed.

Lemma hasListener_channel_scoped validation event f o c chs s :
  intact (this s) ->
  event ∈ InputChannel.EVENTS ->
  Options.channels o = Some c ->
  Utilities.sanitizeChannels (Some c) = inr chs ->
  exists b,
    hasListener validation event (LFunction f) (OObject o) s = Return b s
    /\ (b = true <->
        forall ch, ch ∈ chs ->
          has_matching (channel_listeners (this s) ch event) f).
Proof.
  intros Hi Hev Hc Hres.
  destruct (every_hasListener event f chs s Hi (sanitize_inr _ _ Hres))
    as (b & Hrun & Hb).
  exists b. split; [|exact Hb].
  unfold hasListener. rewrite legacy_object. simpl.
  rewrite (bool_decide_eq_true_2 _ Hev). rewrite Hc.
  rewrite andb_false_r. rewrite Hres.
  erewrite bind_Return by reflexivity. cbv beta.
  erewrite bind_Return by reflexivity. exact Hrun.
Qed.

(** * Round trips of the subscription methods *)

(** X10: after [addListener] for a channel-scoped event name and a
    callback, [hasListener] for that name and callback is [true] on
    every channel selection inside the set subscribed to. *)
Theorem X10_added_listeners_are_found
    (validation validation' : bool) (event : string) (f : callback)
    (o o' : Options.t) (c' : ChannelsArg) (chs chs' : list Z) (s : State) :
  intact (this s) ->
  event ∈ InputChannel.EVENTS ->
  resolved_channels o = inr chs ->
  Options.channels o' = Some c' ->
  Utilities.sanitizeChannels (Some c') = inr chs' ->
  chs' ⊆ chs ->
  exists ls s1,
    addListener validation event (LFunction f) (OObject o) s
    = Return (ListenerArray ls) s1
    /\ hasListener validation' event (LFunction f) (OObject o') s1
       = Return true s1.
Proof.
  intros Hi Hev Hres Hc' Hres' Hsub.
  destruct (addListener_channel_scoped validation event f o chs s Hi Hev Hres)
    as (ls & s1 & Hrun & Hi1 & _ & _ & Hall & _).
  exists ls, s1. split; [exact Hrun|].
  destruct (hasListener_channel_scoped validation' event f o' c' chs' s1
              Hi1 Hev Hc' Hres') as (b & Hhas & Hb).
  rewrite Hhas. f_equal. apply Hb. intros ch Hin.
  apply Hsub, list_elem_of_lookup in Hin as [k Hk].
  destruct (Forall2_lookup_l _ _ _ _ _ Hall Hk) as (l & _ & Hcb & _ & _ & Hl).
  by exists l.
Qed.

Lemma X10_witness :
  intact (this (initial demo_transport))
  /\ "noteon" ∈ InputChannel.EVENTS
  /\ resolved_channels
       (Options.of_channels (Some (CArray [ChNum 1; ChNum 2]))) = inr [1; 2]
  /\ Utilities.sanitizeChannels (Some (CSingle (ChNum 2))) = inr [2]
  /\ [2] ⊆ [1; 2]
  /\ exists ls s1,
       addListener true "noteon" (LFunction 0%nat)
         (OObject (Options.of_channels (Some (CArray [ChNum 1; ChNum 2]))))
         (initial demo_transport)
       = Return (ListenerArray ls) s1
       /\ hasListener true "noteon" (LFunction 0%nat)
            (OObject (Options.of_channels (Some (CSingle (ChNum 2))))) s1
          = Return true s1.
Proof.
  assert (Hi : intact (this (initial demo_transport)))
    by (unfold intact; simpl; repeat constructor).
  assert (Hev : "noteon" ∈ InputChannel.EVENTS)
    by (apply (bool_decide_unpack _); vm_compute; exact I).
  assert (Hr : resolved_channels
                 (Options.of_channels (Some (CArray [ChNum 1; ChNum 2])))
               = inr [1; 2]) by reflexivity.
  assert (Hs : Utilities.sanitizeChannels (Some (CSingle (ChNum 2)))
               = inr [2]) by reflexivity.
  assert (Hsub : [2] ⊆ [1; 2])
    by (intros x ->%list_elem_of_singleton;
        apply list_elem_of_further, list_elem_of_here).
  split; [exact Hi|]. split; [exact Hev|]. split; [exact Hr|].
  split; [exact Hs|]. split; [exact Hsub|].
  exact (X10_added_listeners_are_found true true "noteon" 0%nat
           (Options.of_channels (Some (CArray [ChNum 1; ChNum 2])))
           (Options.of_channels (Some (CSingle (ChNum 2))))
           (CSingle (ChNum 2)) [1; 2] [2] (initial demo_transport)
           Hi Hev Hr eq_refl Hs Hsub).
Defined.

(** X11: [removeListener] with a channel-scoped event name works on the
    channels of the resolved set only and on that name only: there, the
    listeners matching every criterion given are removed and the others
    stay in their order; the other channels, the other names and the
    port's own registry are as before. *)
Theorem X11_removeListener_is_scoped
    (validation : bool) (event : string) (listener : ListenerArg)
    (o : Options.t) (chs : list Z) (s : State) :
  intact (this s) ->
  event ∈ InputChannel.EVENTS ->
  resolved_channels o = inr chs ->
  exists s',
    removeListener validation (Some event) listener (OObject o) s
    = Return tt s'
    /\ (forall ch, ch ∈ chs ->
          channel_listeners (this s') ch event
          = kept listener o (channel_listeners (this s) ch event))
    /\ (forall ch event', ch ∉ chs \/ event' <> event ->
          channel_listeners (this s') ch event'
          = channel_listeners (this s) ch event')
    /\ eventMap (this s') = eventMap (this s).
Proof.
  intros Hi Hev Hres.
  destruct (removeListener_channel_scoped validation event listener o chs s
              Hi Hev Hres) as (s' & Hrun & _ & Hls & Hmap).
  exists s'. split; [exact Hrun|]. split; [|split; [|exact Hmap]].
  - intros ch Hin. rewrite Hls. by rewrite bool_decide_eq_true_2.
  - intros ch event' Hout. rewrite Hls.
    rewrite bool_decide_eq_false_2; [done|]. intros [? ?].
    by destruct Hout.
Qed.

Lemma X11_witness :
  intact (this with_listeners)
  /\ "noteon" ∈ InputChannel.EVENTS
  /\ resolved_channels (Options.of_channels (Some (CSingle (ChNum 1))))
     = inr [1]
  /\ exists s',
       removeListener true (Some "noteon") (LFunction 0%nat)
         (OObject (Options.of_channels (Some (CSingle (ChNum 1)))))
         with_listeners
       = Return tt s'
       /\ channel_listeners (this s') 2 "noteon"
          = channel_listeners (this with_listeners) 2 "noteon"
       /\ eventMap (this s') = eventMap (this with_listeners).
Proof.
  assert (Hi : intact (this with_listeners))
    by (unfold intact; vm_compute; repeat constructor).
  assert (Hev : "noteon" ∈ InputChannel.EVENTS)
    by (apply (bool_decide_unpack _); vm_compute; exact I).
  assert (Hr : resolved_channels
                 (Options.of_channels (Some (CSingle (ChNum 1))))
               = inr [1]) by reflexivity.
  split; [exact Hi|]. split; [exact Hev|]. split; [exact Hr|].
  destruct (X11_removeListener_is_scoped true "noteon" (LFunction 0%nat)
              (Options.of_channels (Some (CSingle (ChNum 1)))) [1]
              with_listeners Hi Hev Hr)
    as (s' & Hrun & _ & Hother & Hmap).
  exists s'. split; [exact Hrun|]. split; [|exact Hmap].
  apply Hother. left. by intros ?%list_elem_of_singleton.
Defined.

(** X12: after [removeListener] with a channel-scoped event name, a
    callback and no other criterion, [hasListener] for that name and
    callback is [false] on every non-empty channel selection inside the
    set the removal worked on. *)
Theorem X12_removed_listeners_are_not_found
    (validation validation' : bool) (event : string) (f : callback)
    (o o' : Options.t) (c' : ChannelsArg) (chs chs' : list Z) (ch : Z)
    (s : State) :
  intact (this s) ->
  event ∈ InputChannel.EVENTS ->
  resolved_channels o = inr chs ->
  Options.context o = None ->
  Options.remaining o = None ->
  Options.channels o' = Some c' ->
  Utilities.sanitizeChannels (Some c') = inr (ch :: chs') ->
  ch :: chs' ⊆ chs ->
  exists s1,
    removeListener validation (Some event) (LFunction f) (OObject o) s
    = Return tt s1
    /\ hasListener validation' event (LFunction f) (OObject o') s1
       = Return false s1.
Proof.
  intros Hi Hev Hres Hctx Hrem Hc' Hres' Hsub.
  destruct (removeListener_channel_scoped validation event (LFunction f) o
              chs s Hi Hev Hres) as (s1 & Hrun & Hi1 & Hls & _).
  exists s1. split; [exact Hrun|].
  destruct (hasListener_channel_scoped validation' event f o' c' (ch :: chs')
              s1 Hi1 Hev Hc' Hres') as (b & Hhas & Hb).
  rewrite Hhas. f_equal. destruct b; [|done]. exfalso.
  assert (Hin : ch ∈ chs) by apply Hsub, list_elem_of_here.
  assert (Hfound : has_matching (channel_listeners (this s1) ch event) f)
    by (apply Hb; [done|apply list_elem_of_here]).
  rewrite Hls, bool_decide_eq_true_2 in Hfound by done.
  by eapply kept_no_match.
Qed.

Lemma X12_witness :
  intact (this with_listeners)
  /\ "noteon" ∈ InputChannel.EVENTS
  /\ resolved_channels
       (Options.of_channels (Some (CArray [ChNum 1; ChNum 2]))) = inr [1; 2]
  /\ Utilities.sanitizeChannels (Some (CSingle (ChNum 2))) = inr [2]
  /\ [2] ⊆ [1; 2]
  /\ exists s1,
       removeListener true (Some "noteon") (LFunction 0%nat)
         (OObject (Options.of_channels (Some (CArray [ChNum 1; ChNum 2]))))
         with_listeners
       = Return tt s1
       /\ hasListener true "noteon" (LFunction 0%nat)
            (OObject (Options.of_channels (Some (CSingle (ChNum 2))))) s1
          = Return false s1.
Proof.
  assert (Hi : intact (this with_listeners))
    by (unfold intact; vm_compute; repeat constructor).
  assert (Hev : "noteon" ∈ InputChannel.EVENTS)
    by (apply (bool_decide_unpack _); vm_compute; exact I).
  assert (Hr : resolved_channels
                 (Options.of_channels (Some (CArray [ChNum 1; ChNum 2])))
               = inr [1; 2]) by reflexivity.
  assert (Hs : Utilities.sanitizeChannels (Some (CSingle (ChNum 2)))
               = inr [2]) by reflexivity.
  assert (Hsub : [2] ⊆ [1; 2])
    by (intros x ->%list_elem_of_singleton;
        apply list_elem_of_further, list_elem_of_here).
  split; [exact Hi|]. split; [exact Hev|]. split; [exact Hr|].
  split; [exact Hs|]. split; [exact Hsub|].
  exact (X12_removed_listeners_are_not_found true true "noteon" 0%nat
           (Options.of_channels (Some (CArray [ChNum 1; ChNum 2])))
           (Options.of_channels (Some (CSingle (ChNum 2))))
           (CSingle (ChNum 2)) [1; 2] [] 2 with_listeners
           Hi Hev Hr eq_refl eq_refl eq_refl Hs Hsub).
Defined.

(** * Input-wide event names *)

Lemma hasListener_input_wide validation event listener o s :
  event ∉ InputChannel.EVENTS ->
  hasListener validation event listener (OObject o) s
  = Return (EventEmitter.hasListener event listener (eventMap (this s))) s.
Proof.
  intros Hev. unfold hasListener. rewrite legacy_object. simpl.
  rewrite (bool_decide_eq_false_2 _ Hev). rewrite andb_false_r. simpl.
  erewrite bind_Return by reflexivity. reflexivity.
Qed.

Lemma removeListener_input_wide validation event listener o s :
  event ∉ InputChannel.EVENTS ->
  removeListener validation (Some event) listener (OObject o) s
  = Return tt
      (mkState
         (set_eventMap
            (EventEmitter.removeListener (Some event) listener o
               (eventMap (this s))) (this s))
         (effects s) (fresh s)).
Proof.
  intros Hev. unfold removeListener. rewrite legacy_object. simpl.
  rewrite (bool_decide_eq_false_2 _ Hev).
  unfold super_removeListener, modify. do 3 f_equal.
  unfold EventEmitter.removeListener.
  destruct (eventMap (this s) !! event) as [ls|]; [|done].
  fold (kept listener (default_channels o) ls). fold (kept listener o ls).
  by rewrite kept_default_channels.
Qed.

Lemma kept_app listener o ls1 ls2 :
  kept listener o (ls1 ++ ls2) = kept listener o ls1 ++ kept listener o ls2.
Proof. unfold kept. apply List.filter_app. Qed.

(** X13: the round trip of an input-wide event name: after
    [addListener] with a callback, [hasListener] for that name and
    callback is [true]; after [removeListener] with that name, that
    callback and no other criterion it is [false], and the listeners
    the port had before for other callbacks are all still there, in
    order. *)
Theorem X13_input_wide_round_trip
    (validation : bool) (event : string) (f : callback) (o : Options.t)
    (s : State) :
  event ∉ InputChannel.EVENTS ->
  exists l s1,
    addListener validation event (LFunction f) (OObject o) s
    = Return (OneListener l) s1
    /\ (forall v opts,
          hasListener v event (LFunction f) (OObject opts) s1 = Return true s1)
    /\ (forall v criteria,
          Options.context criteria = None ->
          Options.remaining criteria = None ->
          exists s2,
            removeListener v (Some event) (LFunction f) (OObject criteria) s1
            = Return tt s2
            /\ (forall v' opts,
                  hasListener v' event (LFunction f) (OObject opts) s2
                  = Return false s2)
            /\ port_listeners (this s2) event
               = kept (LFunction f) criteria (port_listeners (this s) event)).
Proof.
  intros Hev.
  set (r := EventEmitter.addListener PortEmitter (fresh s) event f o
              (eventMap (this s))).
  set (s1 := mkState (set_eventMap r.2 (this s)) (effects s) (S (fresh s))).
  assert (Hnew : port_listeners (this s1) event
                 = if Options.prepend o
                   then r.1 :: port_listeners (this s) event
                   else port_listeners (this s) event ++ [r.1]).
  { unfold port_listeners. simpl. by rewrite lookup_insert_eq. }
  exists r.1, s1. split.
  { unfold addListener. rewrite legacy_object. simpl.
    rewrite bool_decide_eq_false_2 by done. reflexivity. }
  split.
  - intros v opts. rewrite hasListener_input_wide by done. f_equal.
    apply hasListener_function. fold (port_listeners (this s1) event).
    exists r.1. split; [|done]. rewrite Hnew.
    destruct (Options.prepend o);
      rewrite ?elem_of_cons, ?elem_of_app, ?list_elem_of_singleton; auto.
  - intros v criteria Hctx Hrem.
    rewrite removeListener_input_wide by done.
    set (s2 := mkState _ _ _). exists s2. split; [reflexivity|].
    assert (Hls : port_listeners (this s2) event
                  = kept (LFunction f) criteria (port_listeners (this s1) event)).
    { unfold port_listeners at 1.
      etransitivity;
        [exact (removeListener_lookup event (LFunction f) criteria
                  (eventMap (this s1)) event)|].
      by rewrite decide_True. }
    split.
    + intros v' opts. rewrite hasListener_input_wide by done. f_equal.
      apply not_true_is_false. intros Hhas.
      apply hasListener_function in Hhas.
      change (has_matching (port_listeners (this s2) event) f) in Hhas.
      rewrite Hls in Hhas. by eapply kept_no_match.
    + rewrite Hls, Hnew.
      assert (Hgone : kept (LFunction f) criteria [r.1] = []).
      { unfold kept, EventEmitter.matches. simpl. rewrite Hctx, Hrem. simpl.
        by rewrite bool_decide_eq_true_2. }
      destruct (Options.prepend o).
      * change (r.1 :: ?l) with ([r.1] ++ l). by rewrite kept_app, Hgone.
      * by rewrite kept_app, Hgone, app_nil_r.
Qed.

Lemma X13_witness :
  ("opened" ∉ InputChannel.EVENTS)
  /\ exists l s1,
       addListener true "opened" (LFunction 0%nat) (OObject Options.empty)
         (initial demo_transport)
       = Return (OneListener l) s1
       /\ hasListener true "opened" (LFunction 0%nat) (OObject Options.empty)
            s1
          = Return true s1
       /\ exists s2,
            removeListener true (Some "opened") (LFunction 0%nat)
              (OObject Options.empty) s1
            = Return tt s2
            /\ hasListener true "opened" (LFunction 0%nat)
                 (OObject Options.empty) s2
               = Return false s2.
Proof.
  assert (Hev : "opened" ∉ InputChannel.EVENTS)
    by (apply (bool_decide_unpack _); vm_compute; exact I).
  split; [exact Hev|].
  destruct (X13_input_wide_round_trip true "opened" 0%nat Options.empty
              (initial demo_transport) Hev)
    as (l & s1 & Hadd & Hhas & Hrem).
  destruct (Hrem true Options.empty eq_refl eq_refl) as (s2 & Hrun & Hnot & _).
  exists l, s1. split; [exact Hadd|]. split; [apply Hhas|].
  exists s2. split; [exact Hrun|]. apply Hnot.
Defined.

(** X14: two edges of [hasListener] for a channel-scoped event name.
    With validation on and [options.channels] omitted it throws an
    [Error] without looking at any channel, where [addListener] and
    [removeListener] take all 16 channels.  With an empty array for
    [options.channels] it returns [true], whatever the listeners are. *)
Theorem X14_hasListener_edges
    (validation : bool) (event : string) (listener : ListenerArg)
    (o : Options.t) (s : State) :
  event ∈ InputChannel.EVENTS ->
  (Options.channels o = None ->
   exists what,
     hasListener true event listener (OObject o) s = Throw (Error what) s)
  /\ (Options.channels o = Some (CArray []) ->
      hasListener validation event listener (OObject o) s = Return true s).
Proof.
  intros Hev. split; intros Hc.
  - eexists. unfold hasListener. simpl.
    rewrite (bool_decide_eq_true_2 _ Hev). rewrite Hc. simpl.
    reflexivity.
  - unfold hasListener. rewrite legacy_object. simpl.
    rewrite (bool_decide_eq_true_2 _ Hev). rewrite Hc, andb_false_r.
    reflexivity.
Qed.

Lemma X14_witness :
  "noteon" ∈ InputChannel.EVENTS
  /\ (exists what,
        hasListener true "noteon" (LFunction 0%nat) (OObject Options.empty)
          (initial demo_transport)
        = Throw (Error what) (initial demo_transport))
  /\ hasListener true "noteon" (LFunction 0%nat)
       (OObject (Options.of_channels (Some (CArray []))))
       (initial demo_transport)
     = Return true (initial demo_transport).
Proof.
  assert (Hev : "noteon" ∈ InputChannel.EVENTS)
    by (apply (bool_decide_unpack _); vm_compute; exact I).
  split; [exact Hev|]. split.
  - exact (proj1 (X14_hasListener_edges true "noteon" (LFunction 0%nat)
                    Options.empty (initial demo_transport) Hev) eq_refl).
  - exact (proj2 (X14_hasListener_edges true "noteon" (LFunction 0%nat)
                    (Options.of_channels (Some (CArray [])))
                    (initial demo_transport) Hev) eq_refl).
Defined.

(** X15: for an input-wide event name [options.channels] is not looked
    at: [addListener], [hasListener] and [removeListener] do the same
    with any value of it, valid or not, as without it. *)
Theorem X15_channels_ignored_for_input_wide_events
    (validation : bool) (event : string) (listener : ListenerArg)
    (o : Options.t) (c : ChannelsArg) (s : State) :
  event ∉ InputChannel.EVENTS ->
  let o' := Options.set_channels c o in
  addListener validation event listener (OObject o') s
  = addListener validation event listener (OObject o) s
  /\ hasListener validation event listener (OObject o') s
     = hasListener validation event listener (OObject o) s
  /\ removeListener validation (Some event) listener (OObject o') s
     = removeListener validation (Some event) listener (OObject o) s.
Proof.
  intros Hev o'. split; [|split].
  - unfold addListener. rewrite !legacy_object. simpl.
    rewrite bool_decide_eq_false_2 by done. by destruct listener.
  - by rewrite !hasListener_input_wide.
  - by rewrite !removeListener_input_wide.
Qed.

Lemma X15_witness :
  ("opened" ∉ InputChannel.EVENTS)
  /\ addListener true "opened" (LFunction 0%nat)
       (OObject (Options.set_channels (CSingle ChOther) Options.empty))
       (initial demo_transport)
     = addListener true "opened" (LFunction 0%nat) (OObject Options.empty)
         (initial demo_transport).
Proof.
  assert (Hev : "opened" ∉ InputChannel.EVENTS)
    by (apply (bool_decide_unpack _); vm_compute; exact I).
  split; [exact Hev|].
  exact (proj1 (X15_channels_ignored_for_input_wide_events true "opened"
                  (LFunction 0%nat) Options.empty (CSingle ChOther)
                  (initial demo_transport) Hev)).
Defined.

(** * One-time listeners *)





Lemma emit_spec name e s :
  emit name e s
  = Return tt
      (mkState
         (set_eventMap (EventEmitter.emit name (eventMap (this s))).2 (this s))
         (effects s
          ++ Emit name e
          :: ((fun l => Invoke l e)
                <$> (EventEmitter.emit name (eventMap (this s))).1))
         (fresh s)).
Proof.
  unfold emit, mbind, M_bind, get.
  by destruct (EventEmitter.emit name (eventMap (this s))).
Qed.




Lemma invoked_ids_forwards m fs :
  invoked_ids ((fun f => Forward f m) <$> fs) = [].
Proof. by induction fs. Qed.











(** * Call shapes, forwarders and system events *)

(** X18: with validation on, the legacy call shape
    [(event, channels, listener)] of [addListener], [hasListener] and
    [removeListener] does what the call [(event, listener, {channels})]
    does; [addListener] with the channels left undefined takes all
    channels; [on] is that legacy [addListener] and drops its fourth
    argument. *)
Theorem X18_legacy_call_shape
    (event : string) (c : ChannelsArg) (f : callback) (s : State) :
  let modern := OObject (Options.of_channels (Some c)) in
  addListener true event (LChannels c) (OFunction f) s
  = addListener true event (LFunction f) modern s
  /\ addListener true event LUndefined (OFunction f) s
     = addListener true event (LFunction f) (OObject Options.empty) s
  /\ hasListener true event (LChannels c) (OFunction f) s
     = hasListener true event (LFunction f) modern s
  /\ (forall name,
        removeListener true name (LChannels c) (OFunction f) s
        = removeListener true name (LFunction f) modern s)
  /\ (forall o,
        on true event (LChannels c) (OFunction f) o s
        = addListener true event (LFunction f) modern s).
Proof.
  assert (Hadd : addListener true event (LChannels c) (OFunction f) s
                 = addListener true event (LFunction f)
                     (OObject (Options.of_channels (Some c))) s).
  { unfold addListener. simpl. case_bool_decide; [|done].
    by destruct c. }
  split; [exact Hadd|]. split; [done|]. split; [|split].
  - unfold hasListener. simpl. case_bool_decide; [|done]. by destruct c.
  - intros [name|]; unfold removeListener; simpl.
    + case_bool_decide; [|done]. by destruct c.
    + by destruct c.
  - intros o. exact Hadd.
Qed.

Lemma onMidiMessage_forwarded e s :
  intact (this s) ->
  exists s' new,
    _onMidiMessage e s = Return tt s'
    /\ effects s' = effects s ++ new
    /\ forwarded new
       = (fun f => (f, Message.new (mme_data e))) <$> _forwarders (this s).
Proof.
  intros Hi.
  destruct (Message.isSystemMessage (Message.new (mme_data e))) eqn:Hsys.
  - destruct (_onMidiMessage_system e s Hsys)
      as (ev & ev' & invoked & invoked' & s' & Hrun & Heff & _).
    eexists s', _. split; [exact Hrun|]. split; [exact Heff|]. by read_log.
  - destruct (_onMidiMessage_channel e s Hi Hsys)
      as (ev & invoked & s' & Hrun & Heff & _).
    eexists s', _. split; [exact Hrun|]. split; [exact Heff|]. by read_log.
Qed.

(** X19: the forwarder list.  A forwarder passed to [addForwarder] is
    attached, also when it is attached already: attached twice, it is
    called twice for every message.  [removeForwarder] detaches every
    occurrence and leaves the other forwarders in their order, and
    [hasForwarder] tells the two states apart. *)
Theorem X19_forwarder_list
    (forwarder : Forwarder.t) (e : MIDIMessageEvent) (s : State) :
  intact (this s) ->
  let message := Message.new (mme_data e) in
  exists s1 s2 s3 s4 new,
    addForwarder (AForwarder forwarder) None None s = Return forwarder s1
    /\ hasForwarder forwarder s1 = Return true s1
    /\ addForwarder (AForwarder forwarder) None None s1 = Return forwarder s2
    /\ _onMidiMessage e s2 = Return tt s3
    /\ effects s3 = effects s ++ new
    /\ forwarded new
       = ((fun f => (f, message)) <$> _forwarders (this s))
         ++ [(forwarder, message); (forwarder, message)]
    /\ removeForwarder forwarder s3 = Return tt s4
    /\ hasForwarder forwarder s4 = Return false s4
    /\ _forwarders (this s4)
       = filter (fun item => item <> forwarder) (_forwarders (this s)).
Proof.
  intros Hi message.
  set (s1 := mkState (set_forwarders (_forwarders (this s) ++ [forwarder])
                        (this s)) (effects s) (fresh s)).
  set (s2 := mkState (set_forwarders (_forwarders (this s1) ++ [forwarder])
                        (this s1)) (effects s1) (fresh s1)).
  assert (Hi2 : intact (this s2)) by done.
  destruct (onMidiMessage_forwarded e s2 Hi2) as (s3 & new & Hrun & Heff & Hfw).
  assert (Hkeep : keeps (fun s0 => _forwarders (this s0) = _forwarders (this s2))
                    (_onMidiMessage e)).
  { unfold _onMidiMessage.
    apply keeps_bind; [by intros s0 Hs0; rewrite emit_spec|]. intros _.
    apply keeps_bind.
    - destruct (Message.isSystemMessage _).
      + unfold _parseEvent. destruct (Event.message _); [|apply keeps_throw].
        apply keeps_bind; [|by intros ? s0 Hs0; rewrite emit_spec].
        case_bool_decide; [|apply keeps_ret].
        destruct (Event.data _); [apply keeps_ret|apply keeps_throw].
      + destruct (Message.isChannelMessage _); [|apply keeps_ret].
        apply keeps_outside_with_channel. by intros c s0 Hs0.
    - intros _. apply keeps_bind; [apply keeps_get|]. intros i.
      apply keeps_forEach. by intros f s0 Hs0. }
  specialize (Hkeep s2 eq_refl). rewrite Hrun in Hkeep.
  assert (Hfilter : List.filter (fun item => bool_decide (item <> forwarder))
                      (_forwarders (this s3))
                    = filter (fun item => item <> forwarder)
                        (_forwarders (this s))).
  { rewrite Hkeep. simpl. rewrite <- app_assoc.
    generalize (_forwarders (this s)). intros fs.
    induction fs as [|x fs IH]; simpl.
    - rewrite !bool_decide_eq_false_2 by (intros H; by apply H). done.
    - rewrite filter_cons. case_bool_decide; case_decide; try done.
      by f_equal. }
  eexists s1, s2, s3, _, new.
  split; [reflexivity|]. split.
  { unfold hasForwarder, mbind, M_bind, get, mret, M_ret. f_equal.
    apply bool_decide_eq_true_2. simpl. apply elem_of_app. right.
    apply list_elem_of_here. }
  split; [reflexivity|]. split; [exact Hrun|]. split; [exact Heff|].
  split.
  { rewrite Hfw. simpl. rewrite !fmap_app. simpl. by rewrite <- app_assoc. }
  split; [reflexivity|]. split.
  - unfold hasForwarder, mbind, M_bind, get, mret, M_ret. f_equal.
    apply bool_decide_eq_false_2. simpl. rewrite Hfilter.
    intros Hin. apply list_elem_of_filter in Hin as [Hne _]. by apply Hne.
  - simpl. exact Hfilter.
Qed.

Lemma X19_witness :
  intact (this with_two_forwarders)
  /\ exists s1 s2 s3 s4 new,
       addForwarder (AForwarder (Forwarder.mk 2 [9%nat] None None)) None None
         with_two_forwarders
       = Return (Forwarder.mk 2 [9%nat] None None) s1
       /\ addForwarder (AForwarder (Forwarder.mk 2 [9%nat] None None))
            None None s1
          = Return (Forwarder.mk 2 [9%nat] None None) s2
       /\ _onMidiMessage {| mme_data := [248]; mme_timeStamp := 0 |} s2
          = Return tt s3
       /\ effects s3 = effects with_two_forwarders ++ new
       /\ length (forwarded new) = 4%nat
       /\ removeForwarder (Forwarder.mk 2 [9%nat] None None) s3
          = Return tt s4
       /\ _forwarders (this s4) = _forwarders (this with_two_forwarders).
Proof.
  assert (Hi : intact (this with_two_forwarders))
    by (unfold intact; simpl; repeat constructor).
  split; [exact Hi|].
  destruct (X19_forwarder_list (Forwarder.mk 2 [9%nat] None None)
              {| mme_data := [248]; mme_timeStamp := 0 |}
              with_two_forwarders Hi)
    as (s1 & s2 & s3 & s4 & new & H1 & _ & H2 & H3 & Heff & Hfw & H4 & _ & Hfs).
  exists s1, s2, s3, s4, new.
  split; [exact H1|]. split; [exact H2|]. split; [exact H3|].
  split; [exact Heff|]. split; [by rewrite Hfw|]. split; [exact H4|].
  rewrite Hfs. reflexivity.
Defined.

Lemma parseEvent_payload e message data s :
  Event.message e = Some message -> Event.data e = Some data ->
  let type := or_string (Message.type message) "unknownmidimessage" in
  exists e',
    _parseEvent e s = emit type e' s
    /\ Event.type e' = Some type
    /\ same_payload e e'
    /\ Event.song e'
       = (if bool_decide (type = "songselect")
          then Some (match data !! 1%nat with
                     | Some byte => Num (byte + 1)
                     | None => NaN
                     end)
          else Event.song e).
Proof.
  intros Hm Hd type. unfold _parseEvent. rewrite Hm, Hd. fold type.
  case_bool_decide as Hty.
  - eexists. split; [reflexivity|]. by repeat split.
  - eexists. split; [reflexivity|]. by repeat split.
Qed.

(** X20: the event emitted for a system message carries the payload of
    the catch-all event (timestamp, target, message, data, raw data,
    status byte, data bytes) under its own type; it has a [song] only
    when it is [songselect], and that is [NaN] when the frame has no
    data byte.  The catch-all event itself keeps its type and has no
    [song]. *)
Theorem X20_system_event_payload (e : MIDIMessageEvent) (s : State) :
  let message := Message.new (mme_data e) in
  let type := or_string (Message.type message) "unknownmidimessage" in
  Message.isSystemMessage message = true ->
  exists s' new ev ev',
    _onMidiMessage e s = Return tt s'
    /\ effects s' = effects s ++ new
    /\ emitted new = [("midimessage", ev); (type, ev')]
    /\ Event.type ev = Some "midimessage" /\ Event.song ev = None
    /\ Event.type ev' = Some type
    /\ same_payload ev ev'
    /\ Event.song ev'
       = (if bool_decide (type = "songselect")
          then Some (match mme_data e !! 1%nat with
                     | Some byte => Num (byte + 1)
                     | None => NaN
                     end)
          else None).
Proof.
  intros message type Hsys. unfold _onMidiMessage. fold message.
  set (ev := Event.mk _ _ _ _ _ _ _ _ _).
  rewrite Hsys.
  assert (Hdata : Message.data message = mme_data e).
  { unfold message, Message.new. repeat case_match; reflexivity. }
  erewrite bind_Return by apply emit_spec. cbv beta.
  set (s1 := mkState _ _ _).
  destruct (parseEvent_payload ev message (Message.data message) s1
              eq_refl eq_refl) as (ev' & Hrun & Hty & Hsame & Hsong).
  erewrite bind_Return by (rewrite Hrun; apply emit_spec). cbv beta.
  erewrite bind_Return by reflexivity. cbv beta.
  rewrite forEach_forward. eexists _, _, ev, ev'.
  split; [reflexivity|]. split; [simpl; by rewrite <- !app_assoc|].
  split; [read_log; reflexivity|].
  rewrite Hdata in Hsong.
  split; [reflexivity|]. split; [reflexivity|]. split; [exact Hty|].
  split; [exact Hsame|]. exact Hsong.
Qed.

Lemma X20_witness :
  Message.isSystemMessage (Message.new [243]) = true
  /\ exists s' new ev ev',
       _onMidiMessage {| mme_data := [243]; mme_timeStamp := 0 |}
         (initial demo_transport)
       = Return tt s'
       /\ effects s' = effects (initial demo_transport) ++ new
       /\ emitted new = [("midimessage", ev); ("songselect", ev')]
       /\ same_payload ev ev'
       /\ Event.song ev' = Some NaN.
Proof.
  assert (Hm : Message.isSystemMessage (Message.new [243]) = true)
    by reflexivity.
  split; [exact Hm|].
  destruct (X20_system_event_payload
              {| mme_data := [243]; mme_timeStamp := 0 |}
              (initial demo_transport) Hm)
    as (s' & new & ev & ev' & Hrun & Heff & Hem & _ & _ & _ & Hsame & Hsong).
  exists s', new, ev, ev'.
  split; [exact Hrun|]. split; [exact Heff|]. split; [exact Hem|].
  split; [exact Hsame|]. exact Hsong.
Defined.
